(** * AlchemyMachine: the puzzle state machine of [src/main.cpp] and the
    remote command handler of [src/WifiFunctions.h], as a shallow embedding.

    The firmware is a single-threaded Arduino sketch.  Its global variables,
    the two lock outputs, the millisecond clock and the four light strips are
    gathered in one record [State]; every C++ statement becomes a function
    [State -> State] and sequencing is composition ([s1 ;; s2]).  What the
    sketch reads from the outside world during one execution of [loop()]
    (the two digital inputs, the answer of each RFID reader, the MQTT
    messages pumped by [client.loop()]) is the record [Inputs].

    What the model fixes about the platform:
    - the clock counts milliseconds since boot; [millis()] is the clock
      modulo 2^32; time passes in [delay] and in the wait loop of [onSolve],
      nowhere else;
    - every [digitalWrite] is logged with its time, pin and level;
    - [getInventory] returns a code and leaves a buffer; the PN5180 driver
      is not among the sources, so what a failed read leaves in the buffer is
      not fixed: the inputs are free to choose it, and a statement that
      depends on it says so in a hypothesis;
    - the serial line is not part of the state; what [showCurrentStatus()]
      prints is given apart, as a function of [lastUid];
    - the WiFi radio and the MQTT client answer as the environment decides;
      the network functions of [WifiFunctions.h] are modelled apart, on what
      the sketch can observe of them;
    - the class [NeoPatterns] of [lights.h] is not among the sources and is
      modelled from the specification (module [NeoPatterns] below). *)

From Stdlib Require Import ZArith List Bool Lia.
From Stdlib Require Import Strings.Byte Strings.Ascii Strings.String DecimalString.
Import ListNotations.
Local Open Scope Z_scope.

(** ** Bytes, arrays of bytes and the C library functions used on them *)

Definition byte_val (b : byte) : Z := Z.of_N (Byte.to_N b).

(** [memcmp(a, b, n)]: the difference of the first pair of differing bytes
    among the first [n], 0 when there is none. *)
Fixpoint memcmp (a b : list byte) (n : nat) : Z :=
  match n, a, b with
  | S n', x :: a', y :: b' =>
      if Byte.eqb x y then memcmp a' b' n' else byte_val x - byte_val y
  | _, _, _ => 0
  end.

(** [strcmp(a, b)] on NUL-terminated strings. *)
Fixpoint strcmp (a b : list byte) : Z :=
  match a, b with
  | x :: a', y :: b' =>
      if Byte.eqb x y
      then (if Byte.eqb x x00 then 0 else strcmp a' b')
      else byte_val x - byte_val y
  | _, _ => 0
  end.

(** [tolower(c)] in the C locale: only 'A'..'Z' are changed. *)
Definition tolower (c : byte) : byte :=
  if (65 <=? byte_val c) && (byte_val c <=? 90)
  then match Byte.of_N (Byte.to_N c + 32) with Some l => l | None => c end
  else c.

(** A string literal as the NUL-terminated array the compiler emits. *)
Definition cstr (s : string) : list byte := list_byte_of_string s ++ [x00].

(** ** Tag identifiers: [uint8_t uid[8]] *)

Record Uid := mkUid
  { u0 : byte; u1 : byte; u2 : byte; u3 : byte;
    u4 : byte; u5 : byte; u6 : byte; u7 : byte }.

Definition bytes (u : Uid) : list byte :=
  [u0 u; u1 u; u2 u; u3 u; u4 u; u5 u; u6 u; u7 u].

Definition correctUid : list Uid :=
  [ mkUid x3c x33 x13 x66 x08 x01 x04 xe0;   (* Red beaker *)
    mkUid x04 x3a x13 x66 x08 x01 x04 xe0 ]. (* Blue beaker *)

Definition resetUid : Uid := mkUid x24 x43 x13 x66 x08 x01 x04 xe0.

Definition noUid : Uid := mkUid x00 x00 x00 x00 x00 x00 x00 x00.

Definition numReaders : nat := 2.

(** [memcmp(a, b, 8) == 0] on two identifiers. *)
Definition same_uid (a b : Uid) : bool := memcmp (bytes a) (bytes b) 8 =? 0.

(** Array cell update [l[i] = v]; the sketch only indexes below [numReaders]. *)
Fixpoint store {A} (i : nat) (v : A) (l : list A) : list A :=
  match l, i with
  | [], _ => []
  | _ :: r, O => v :: r
  | x :: r, S j => x :: store j v r
  end.

(** ** Digital levels and pins *)

Inductive level := LOW | HIGH.

Definition level_eqb (a b : level) : bool :=
  match a, b with LOW, LOW | HIGH, HIGH => true | _, _ => false end.

Definition laserPin : Z := 34.
Definition beakerDoor : Z := 32.
Definition crystalDoor : Z := 33.
Definition limitSwitch : Z := 14.

(** ** The light strips

    [lights.h] (class [NeoPatterns]) is part of the repository but is not
    among the available sources; [main.cpp] reads and writes the fields
    [ActivePattern] and [Color1] and calls [Color], [ColorSet], [show],
    [Flash], [AcceleratingSequence] and [Update]. *)

Module NeoPatterns.

(** Modelled from the spec: the pattern tags of the missing [lights.h];
    [main.cpp] names [none] and [flash] and starts the third with
    [AcceleratingSequence]. *)
Inductive pattern := none | flash | acceleratingSequence.

(** Modelled from the spec: the directions of the missing [lights.h], the
    last argument of [Flash] and [AcceleratingSequence] in [main.cpp]. *)
Inductive direction := forward | reverse.

Definition pattern_eqb (p q : pattern) : bool :=
  match p, q with
  | none, none | flash, flash
  | acceleratingSequence, acceleratingSequence => true
  | _, _ => false
  end.

(** Modelled from the spec: the strip object of the missing [lights.h]:
    its pattern tag, pattern parameters (primary colour, direction, step
    interval, the segment the pattern runs on, the step reached) and its
    pixel values.  The pixel buffer stands for what the strip displays. *)
Record t := mk
  { ActivePattern : pattern;
    Direction : direction;
    Color1 : Z;
    Interval : Z;
    SegStart : nat;
    SegLength : nat;
    Index : nat;
    pixels : list Z }.

(** [Adafruit_NeoPixel::Color(r, g, b)]: the packed 24-bit colour. *)
Definition Color (r g b : Z) : Z :=
  Z.lor (Z.lor (Z.shiftl r 16) (Z.shiftl g 8)) b.

(** Modelled from the spec: the fill of the missing [lights.h]: the pixels
    [start], ..., [start + len - 1] take the colour [c]. *)
Fixpoint fill_from (i : nat) (c : Z) (start len : nat) (px : list Z) : list Z :=
  match px with
  | [] => []
  | p :: r =>
      (if (start <=? i)%nat && (i <? start + len)%nat then c else p)
        :: fill_from (S i) c start len r
  end.

Definition fill := fill_from 0.

(** Modelled from the spec: [ColorSet] of the missing [lights.h], the
    spec's [setSolid]: "immediate, synchronous fill; clears any running
    pattern". *)
Definition ColorSet (c : Z) (start len : nat) (s : t) : t :=
  mk none (Direction s) (Color1 s) (Interval s) (SegStart s) (SegLength s)
     (Index s) (fill c start len (pixels s)).

(** Modelled from the spec: [show] of the missing [lights.h], the "commit
    frame" operation; the pixel buffer already stands for the display. *)
Definition show (s : t) : t := s.

(** Modelled from the spec: [Flash] of the missing [lights.h], the spec's
    [startFlash]: the strip alternates between the colour and dark at the
    given interval and "runs indefinitely until replaced". *)
Definition Flash (c : Z) (interval : Z) (start len : nat) (d : direction)
    (s : t) : t :=
  mk flash d c interval start len 0 (pixels s).

(** Modelled from the spec: [AcceleratingSequence] of the missing
    [lights.h], the spec's [startAcceleratingSequence]: "a moving lit
    segment". *)
Definition AcceleratingSequence (c : Z) (start len : nat) (d : direction)
    (s : t) : t :=
  mk acceleratingSequence d c (Interval s) start len 0 (pixels s).

(** Modelled from the spec: the lit position of the moving segment of the
    missing [lights.h] at the step reached. *)
Definition lit_position (s : t) : nat :=
  match Direction s with
  | forward => SegStart s + Nat.modulo (Index s) (SegLength s)
  | reverse => SegStart s + (SegLength s - 1 - Nat.modulo (Index s) (SegLength s))
  end.

(** Modelled from the spec: [Update] of the missing [lights.h], the spec's
    [tick]: "recompute pixel values per the active pattern's rule".  One
    call is one step of the running pattern (the due-time test of the
    engine is not modelled); a strip without a pattern is left alone. *)
Definition Update (s : t) : t :=
  match ActivePattern s with
  | none => s
  | flash =>
      mk flash (Direction s) (Color1 s) (Interval s) (SegStart s) (SegLength s)
         (S (Index s))
         (fill (if Nat.even (Index s) then Color1 s else 0)
               (SegStart s) (SegLength s) (pixels s))
  | acceleratingSequence =>
      mk acceleratingSequence (Direction s) (Color1 s) (Interval s)
         (SegStart s) (SegLength s) (S (Index s))
         (fill (Color1 s) (lit_position s) 1
               (fill 0 (SegStart s) (SegLength s) (pixels s)))
  end.

(** The assignment [LSn.ActivePattern = p] made by [main.cpp]. *)
Definition set_ActivePattern (p : pattern) (s : t) : t :=
  mk p (Direction s) (Color1 s) (Interval s) (SegStart s) (SegLength s)
     (Index s) (pixels s).

(** Modelled from the spec: the object of the missing [lights.h] right
    after construction and [begin()]: no pattern, [n] dark pixels. *)
Definition create (n : nat) : t := mk none forward 0 0 0 n 0 (repeat 0 n).

(** Every pixel of the strip is dark. *)
Definition dark (s : t) : bool := forallb (Z.eqb 0) (pixels s).

End NeoPatterns.
Import NeoPatterns.

Definition Strip1Length : nat := 27.
Definition Strip1Start : nat := 0.
Definition Strip2Length : nat := 8.
Definition Strip2Start : nat := 0.
Definition Strip3Length : nat := 22.
Definition Strip3Start : nat := 0.
Definition Strip4Length : nat := 8.
Definition Strip4Start : nat := 0.

(** ** The state of the sketch and of the board *)

Inductive PuzzleState := Initializing | Unpowered | Powered | Solved | GameOver.

Record Strips := mkStrips
  { LS1 : NeoPatterns.t;   (* Beaker Lights *)
    LS2 : NeoPatterns.t;   (* Red Pipe Lights *)
    LS3 : NeoPatterns.t;   (* Purple lights for crystal compartment *)
    LS4 : NeoPatterns.t }. (* Blue Pipe Lights *)

(** One [digitalWrite]: when, on which pin, which level. *)
Record PinEvent := mkEv { ev_time : Z; ev_pin : Z; ev_level : level }.

(** The board: the clock in milliseconds since boot (not wrapped), the level
    each lock output is driven to, and every [digitalWrite] made so far, the
    most recent first. *)
Record Board := mkBoard
  { clock : Z;
    out_beakerDoor : level;
    out_crystalDoor : level;
    pinlog : list PinEvent }.

Record State := mkState
  { puzzleState : PuzzleState;
    solvedMillis : Z;
    currentMillis : Z;
    lastUid : list Uid;
    beakersCorrect : bool;
    alchemyPower : bool;
    doorClosed : bool;
    lights : Strips;
    board : Board }.

(** [unsigned long] is 32 bits wide on the ESP32. *)
Definition u32 (x : Z) : Z := x mod 2 ^ 32.

(** ** What one execution of [loop()] reads from outside *)

(** The PN5180 library's error codes. *)
Definition ISO15693_EC_OK : Z := 0.
Definition EC_NO_CARD : Z := -1.

(** The answer of [nfc[i].getInventory(thisUid)]: the return code and the
    contents of the buffer [thisUid] after the call.  [thisUid] is an
    uninitialised local array and the driver is not among the sources: the
    model does not fix what the buffer holds after a failed call (zeros if
    the driver clears it, whatever it held if the driver leaves it), so a
    statement for all inputs holds whatever the driver does. *)
Record Reading := mkReading { rc : Z; thisUid : Uid }.

Record Inputs := mkInputs
  { digitalRead : Z -> level;
    getInventory : nat -> Reading;
    mqtt : list (list byte) }.

(** ** Statements *)

Definition stmt := State -> State.

Definition skip : stmt := fun st => st.

Definition seq (a b : stmt) : stmt := fun st => b (a st).
Notation "a ;; b" := (seq a b) (at level 61, right associativity).

Definition ifelse (c : State -> bool) (a b : stmt) : stmt :=
  fun st => if c st then a st else b st.

Definition when (c : State -> bool) (a : stmt) : stmt := ifelse c a skip.

(** [for (int i = 0; i < n; i++) body(i)] *)
Definition for_ (n : nat) (body : nat -> stmt) : stmt :=
  fun st => fold_left (fun s i => body i s) (List.seq 0 n) st.

(** [while (c) body], cut after [fuel] passes. *)
Fixpoint while_ (fuel : nat) (c : State -> bool) (body : stmt) (st : State) : State :=
  match fuel with
  | O => st
  | S f => if c st then while_ f c body (body st) else st
  end.

(** *** Assignments to the globals *)

Definition set_puzzleState (v : PuzzleState) : stmt := fun st =>
  mkState v (solvedMillis st) (currentMillis st) (lastUid st)
          (beakersCorrect st) (alchemyPower st) (doorClosed st) (lights st) (board st).

Definition set_solvedMillis (v : Z) : stmt := fun st =>
  mkState (puzzleState st) v (currentMillis st) (lastUid st)
          (beakersCorrect st) (alchemyPower st) (doorClosed st) (lights st) (board st).

Definition set_currentMillis (v : Z) : stmt := fun st =>
  mkState (puzzleState st) (solvedMillis st) v (lastUid st)
          (beakersCorrect st) (alchemyPower st) (doorClosed st) (lights st) (board st).

Definition set_lastUid (i : nat) (v : Uid) : stmt := fun st =>
  mkState (puzzleState st) (solvedMillis st) (currentMillis st) (store i v (lastUid st))
          (beakersCorrect st) (alchemyPower st) (doorClosed st) (lights st) (board st).

Definition set_beakersCorrect (v : bool) : stmt := fun st =>
  mkState (puzzleState st) (solvedMillis st) (currentMillis st) (lastUid st)
          v (alchemyPower st) (doorClosed st) (lights st) (board st).

Definition set_alchemyPower (v : bool) : stmt := fun st =>
  mkState (puzzleState st) (solvedMillis st) (currentMillis st) (lastUid st)
          (beakersCorrect st) v (doorClosed st) (lights st) (board st).

Definition set_doorClosed (v : bool) : stmt := fun st =>
  mkState (puzzleState st) (solvedMillis st) (currentMillis st) (lastUid st)
          (beakersCorrect st) (alchemyPower st) v (lights st) (board st).

Definition set_lights (v : Strips) : stmt := fun st =>
  mkState (puzzleState st) (solvedMillis st) (currentMillis st) (lastUid st)
          (beakersCorrect st) (alchemyPower st) (doorClosed st) v (board st).

Definition set_board (v : Board) : stmt := fun st =>
  mkState (puzzleState st) (solvedMillis st) (currentMillis st) (lastUid st)
          (beakersCorrect st) (alchemyPower st) (doorClosed st) (lights st) v.

(** *** Calls on the four strip objects *)

Definition on_LS1 (f : NeoPatterns.t -> NeoPatterns.t) : stmt := fun st =>
  let l := lights st in set_lights (mkStrips (f (LS1 l)) (LS2 l) (LS3 l) (LS4 l)) st.
Definition on_LS2 (f : NeoPatterns.t -> NeoPatterns.t) : stmt := fun st =>
  let l := lights st in set_lights (mkStrips (LS1 l) (f (LS2 l)) (LS3 l) (LS4 l)) st.
Definition on_LS3 (f : NeoPatterns.t -> NeoPatterns.t) : stmt := fun st =>
  let l := lights st in set_lights (mkStrips (LS1 l) (LS2 l) (f (LS3 l)) (LS4 l)) st.
Definition on_LS4 (f : NeoPatterns.t -> NeoPatterns.t) : stmt := fun st =>
  let l := lights st in set_lights (mkStrips (LS1 l) (LS2 l) (LS3 l) (f (LS4 l))) st.

Definition LS1_ (st : State) : NeoPatterns.t := LS1 (lights st).
Definition LS2_ (st : State) : NeoPatterns.t := LS2 (lights st).
Definition LS3_ (st : State) : NeoPatterns.t := LS3 (lights st).
Definition LS4_ (st : State) : NeoPatterns.t := LS4 (lights st).

(** *** The Arduino core: [millis], [delay], [digitalWrite] *)

Definition millis (st : State) : Z := u32 (clock (board st)).

(** Time passes only in [delay] and in the wait loop of [onSolve]. *)
Definition elapse (ms : Z) : stmt := fun st =>
  let b := board st in
  set_board (mkBoard (clock b + ms) (out_beakerDoor b) (out_crystalDoor b) (pinlog b)) st.

Definition delay (ms : Z) : stmt := elapse ms.

Definition digitalWrite (pin : Z) (v : level) : stmt := fun st =>
  let b := board st in
  set_board (mkBoard (clock b)
                     (if pin =? beakerDoor then v else out_beakerDoor b)
                     (if pin =? crystalDoor then v else out_crystalDoor b)
                     (mkEv (clock b) pin v :: pinlog b)) st.

(** [showCurrentStatus()] only prints on the serial line. *)
Definition showCurrentStatus : stmt := skip.

(** ** [onSolve], [onReset], [gameOver] *)

(** Passes of the wait loop of [onSolve] that read the same value of
    [millis()] are taken together: one pass of the model lasts one
    millisecond, so the 5000 ms wait is over after [wait_passes] passes. *)
Definition wait_passes : nat := 5000.

Definition onSolve : stmt :=
  (* Start the light sequences for LS2 and LS4 *)
  on_LS2 (AcceleratingSequence (Color 255 0 0) Strip2Start Strip2Length forward) ;;
  on_LS3 (AcceleratingSequence (Color 128 0 128) Strip3Start Strip3Length forward) ;;
  on_LS4 (AcceleratingSequence (Color 0 0 255) Strip4Start Strip4Length reverse) ;;
  (* Run for 5 seconds *)
  (fun st =>
     let startTime := millis st in
     while_ wait_passes
       (fun s => u32 (millis s - startTime) <? 5000)
       (on_LS2 Update ;; on_LS3 Update ;; on_LS4 Update ;; elapse 1) st) ;;
  (* Clear all light effects before setting the final light states *)
  on_LS1 (set_ActivePattern none) ;;
  on_LS2 (set_ActivePattern none) ;;
  on_LS3 (set_ActivePattern none) ;;
  on_LS4 (set_ActivePattern none) ;;
  delay 50 ;;
  on_LS1 (ColorSet (Color 0 0 0) Strip1Start Strip1Length) ;;
  on_LS2 (ColorSet (Color 0 0 0) Strip2Start Strip2Length) ;;
  on_LS3 (ColorSet (Color 0 0 0) Strip3Start Strip3Length) ;;
  on_LS4 (ColorSet (Color 0 0 0) Strip4Start Strip4Length) ;;
  on_LS1 show ;; on_LS2 show ;; on_LS3 show ;; on_LS4 show ;;
  delay 50 ;;
  (* Set the final light states *)
  on_LS1 (ColorSet (Color 0 255 0) Strip1Start Strip1Length) ;;
  on_LS2 (ColorSet (Color 0 255 0) Strip2Start Strip2Length) ;;
  on_LS3 (ColorSet (Color 128 0 128) Strip3Start Strip3Length) ;;
  on_LS4 (ColorSet (Color 0 255 0) Strip4Start Strip4Length) ;;
  on_LS1 show ;; on_LS2 show ;; on_LS3 show ;; on_LS4 show ;;
  delay 50 ;;
  digitalWrite crystalDoor HIGH ;;
  delay 10 ;;
  digitalWrite crystalDoor LOW ;;
  (fun st => set_solvedMillis (millis st) st) ;;
  set_puzzleState Solved.

Definition onReset : stmt :=
  (* Lock the crystal door and unlock the beaker door *)
  digitalWrite crystalDoor HIGH ;;
  delay 10 ;;
  digitalWrite crystalDoor LOW ;;
  delay 10 ;;
  digitalWrite beakerDoor LOW ;;
  (* Turn off all lights *)
  on_LS1 (set_ActivePattern none) ;;
  on_LS2 (set_ActivePattern none) ;;
  on_LS3 (set_ActivePattern none) ;;
  on_LS4 (set_ActivePattern none) ;;
  delay 50 ;;
  on_LS1 (ColorSet (Color 0 0 0) Strip1Start Strip1Length) ;;
  on_LS2 (ColorSet (Color 0 0 0) Strip2Start Strip2Length) ;;
  on_LS3 (ColorSet (Color 0 0 0) Strip3Start Strip3Length) ;;
  on_LS4 (ColorSet (Color 0 0 0) Strip4Start Strip4Length) ;;
  on_LS1 show ;; on_LS2 show ;; on_LS3 show ;; on_LS4 show ;;
  delay 50 ;;
  set_puzzleState Unpowered.

Definition gameOver : stmt :=
  digitalWrite beakerDoor LOW ;;
  set_puzzleState GameOver.

(** ** [callback] of [WifiFunctions.h] and the command pump *)

Definition callback (message : list byte) : stmt :=
  (* Convert byte array to C-style string, lower-cased *)
  let messageArrived := map tolower message ++ [x00] in
  if strcmp messageArrived (cstr "solve") =? 0 then onSolve
  else if strcmp messageArrived (cstr "reset") =? 0 then onReset
  else skip.

(** [client.loop()]: the callback runs on each message that has arrived. *)
Definition client_loop (inp : Inputs) : stmt :=
  fun st => fold_left (fun s m => callback m s) (mqtt inp) st.

(** ** [loop()] *)

Definition black : Z := Color 0 0 0.
Definition red : Z := Color 255 0 0.
Definition green : Z := Color 0 255 0.
Definition purple : Z := Color 128 0 128.

Definition active (s : NeoPatterns.t) : bool :=
  negb (pattern_eqb (ActivePattern s) none).

(** The block that opens the [Initializing], [Unpowered] and [GameOver]
    cases: each strip whose [ActivePattern] is not [none] is set to black. *)
Definition lights_off_if_active : stmt :=
  when (fun st => active (LS1_ st))
    (on_LS1 (ColorSet black Strip1Start Strip1Length) ;; on_LS1 show) ;;
  when (fun st => active (LS2_ st))
    (on_LS2 (ColorSet black Strip2Start Strip2Length) ;; on_LS2 show) ;;
  when (fun st => active (LS3_ st))
    (on_LS3 (ColorSet black Strip3Start Strip3Length) ;; on_LS3 show) ;;
  when (fun st => active (LS4_ st))
    (on_LS4 (ColorSet black Strip4Start Strip4Length) ;; on_LS4 show).

Definition case_Initializing : stmt :=
  (* Turn the lights off *)
  lights_off_if_active ;;
  (* Lock the crystal door and unlock the beaker door *)
  digitalWrite beakerDoor LOW ;;
  set_puzzleState Unpowered.

Definition case_Unpowered : stmt :=
  (* Ensure all lights are turned off when unpowered *)
  lights_off_if_active ;;
  (* Check if the laser is detected *)
  ifelse alchemyPower (set_puzzleState Powered) (set_puzzleState Unpowered) ;;
  delay 100.

(** The body of the reader loop of the [Powered] case for reader [i]. *)
Definition read_Powered (inp : Inputs) (i : nat) : stmt :=
  let r := getInventory inp i in
  if negb (rc r =? ISO15693_EC_OK) then
    (* no tag: the [continue] branch *)
    when (fun st => negb (same_uid (nth i (lastUid st) noUid) noUid))
      (set_lastUid i noUid ;; showCurrentStatus) ;;
    set_beakersCorrect false
  else
    when (fun st => negb (same_uid (thisUid r) (nth i (lastUid st) noUid)))
      (set_lastUid i (thisUid r) ;; showCurrentStatus) ;;
    when (fun _ => negb (same_uid (thisUid r) (nth i correctUid noUid)))
      (set_beakersCorrect false) ;;
    when (fun _ => same_uid (thisUid r) resetUid) onReset.

Definition case_Powered (inp : Inputs) : stmt :=
  set_beakersCorrect true ;;
  (* Check the RFID readers *)
  for_ numReaders (read_Powered inp) ;;
  delay 50 ;;
  ifelse (fun st => negb (beakersCorrect st))
    ((* Flash red lights if beakers are incorrect *)
     when (fun st => negb (pattern_eqb (ActivePattern (LS1_ st)) flash)
                     || negb (Color1 (LS1_ st) =? red))
       (on_LS1 (Flash red 80 Strip1Start Strip1Length forward)) ;;
     showCurrentStatus ;;
     delay 2000)
    (ifelse (fun st => negb (doorClosed st))
       (when (fun st => alchemyPower st && beakersCorrect st)
          ((* Lock the beaker door *)
           digitalWrite beakerDoor HIGH) ;;
        (* Flash green lights if beakers are correct but door is open *)
        when (fun st => negb (pattern_eqb (ActivePattern (LS1_ st)) flash)
                        || negb (Color1 (LS1_ st) =? green))
          (on_LS1 (Flash green 80 Strip1Start Strip1Length forward)))
       (when (fun st => alchemyPower st && beakersCorrect st && doorClosed st)
          ((* Beakers are correct, door is closed, move to solved state *)
           onSolve))) ;;
  (* Continue checking for power loss *)
  when (fun st => negb (alchemyPower st))
    (on_LS1 (set_ActivePattern none) ;;
     delay 50 ;;
     on_LS1 (ColorSet black Strip1Start Strip1Length) ;;
     on_LS1 show ;;
     on_LS1 (set_ActivePattern none) ;;
     delay 50 ;;
     on_LS2 (ColorSet black Strip2Start Strip2Length) ;;
     on_LS2 show ;;
     on_LS2 (set_ActivePattern none) ;;
     delay 50 ;;
     on_LS3 (ColorSet black Strip3Start Strip3Length) ;;
     on_LS3 show ;;
     on_LS3 (set_ActivePattern none) ;;
     delay 50 ;;
     on_LS4 (ColorSet black Strip4Start Strip4Length) ;;
     on_LS4 show ;;
     set_puzzleState Unpowered).

(** The reader loop of the [Solved] and [GameOver] cases: [rc] is not looked
    at, the buffer is compared with [resetUid] whatever the call returned. *)
Definition read_for_reset (inp : Inputs) (i : nat) : stmt :=
  when (fun _ => same_uid (thisUid (getInventory inp i)) resetUid) onReset.

Definition case_Solved (inp : Inputs) : stmt :=
  (* Check if game has been solved more than 30 minutes, if so turn off all lights. *)
  (fun st => set_currentMillis (millis st) st) ;;
  ifelse (fun st => u32 (currentMillis st - solvedMillis st) >? 1800000)
    gameOver
    ((* Check and Set the final light states *)
     when (fun st => negb (Color1 (LS1_ st) =? green))
       (on_LS1 (ColorSet green Strip1Start Strip1Length) ;; on_LS1 show) ;;
     when (fun st => negb (Color1 (LS2_ st) =? green))
       (on_LS2 (ColorSet green Strip2Start Strip2Length) ;; on_LS2 show) ;;
     when (fun st => negb (Color1 (LS3_ st) =? purple))
       (on_LS3 (ColorSet purple Strip3Start Strip3Length) ;; on_LS3 show) ;;
     when (fun st => negb (Color1 (LS4_ st) =? green))
       (on_LS4 (ColorSet green Strip4Start Strip4Length) ;; on_LS4 show)) ;;
  (* Check the RFID readers *)
  for_ numReaders (read_for_reset inp).

Definition case_GameOver (inp : Inputs) : stmt :=
  (* Turn all lights off if they are not already off *)
  lights_off_if_active ;;
  (* Check the RFID readers *)
  for_ numReaders (read_for_reset inp) ;;
  delay 1000.

Definition loop (inp : Inputs) : stmt :=
  (* Check the current state of the puzzle *)
  set_alchemyPower (level_eqb (digitalRead inp laserPin) LOW) ;;
  set_doorClosed (level_eqb (digitalRead inp limitSwitch) LOW) ;;
  (fun st =>
     match puzzleState st with
     | Initializing => case_Initializing st
     | Unpowered => case_Unpowered st
     | Powered => case_Powered inp st
     | Solved => case_Solved inp st
     | GameOver => case_GameOver inp st
     end) ;;
  delay 50 ;;
  client_loop inp ;;
  on_LS1 Update ;;
  on_LS2 Update ;;
  on_LS3 Update ;;
  on_LS4 Update.

(** ** [setup()] and the runs of the sketch *)

(** The globals as their initialisers leave them, on a board that has just
    booted. *)
Definition power_on : State :=
  mkState Initializing 0 0 [noUid; noUid] false false false
          (mkStrips (create Strip1Length) (create Strip2Length)
                    (create Strip3Length) (create Strip4Length))
          (mkBoard 0 LOW LOW []).

(** [setup()]: the lock outputs, then the test of the four strips.  The
    serial line, the network connection and the reader initialisation leave
    the modelled state alone. *)
Definition setup : stmt :=
  delay 500 ;;
  digitalWrite beakerDoor LOW ;;
  delay 500 ;;
  digitalWrite crystalDoor LOW ;;
  delay 500 ;;
  on_LS1 show ;; on_LS2 show ;; on_LS3 show ;; on_LS4 show ;;
  delay 50 ;;
  on_LS1 (ColorSet (Color 255 0 0) Strip1Start Strip1Length) ;; delay 1000 ;;
  on_LS1 (ColorSet 255 Strip1Start Strip1Length) ;; delay 1000 ;;
  on_LS2 (ColorSet 16711680 Strip2Start Strip2Length) ;; delay 1000 ;;
  on_LS2 (ColorSet 255 Strip2Start Strip2Length) ;; delay 1000 ;;
  on_LS3 (ColorSet 16711680 Strip3Start Strip3Length) ;; delay 1000 ;;
  on_LS3 (ColorSet 255 Strip3Start Strip3Length) ;; delay 1000 ;;
  on_LS4 (ColorSet 16711680 Strip4Start Strip4Length) ;; delay 1000 ;;
  on_LS4 (ColorSet 255 Strip4Start Strip4Length) ;; delay 1000 ;;
  on_LS1 (ColorSet (Color 0 0 0) Strip1Start Strip1Length) ;;
  on_LS2 (ColorSet (Color 0 0 0) Strip2Start Strip2Length) ;;
  on_LS3 (ColorSet (Color 0 0 0) Strip3Start Strip3Length) ;;
  on_LS4 (ColorSet (Color 0 0 0) Strip4Start Strip4Length) ;;
  on_LS1 show ;; on_LS2 show ;; on_LS3 show ;; on_LS4 show ;;
  delay 500.

(** The state in which the first [loop()] starts. *)
Definition booted : State := setup power_on.

(** [loop()] executed once per element of [ins], in order. *)
Definition run (ins : list Inputs) : stmt :=
  fun st => fold_left (fun s inp => loop inp s) ins st.

(** The states the sketch can be in when a [loop()] starts. *)
Definition reachable (st : State) : Prop := exists ins, st = run ins booted.

(** ** Observations used in the statements *)

(** The beaker lock is held while its output is driven [HIGH]. *)
Definition beaker_locked (st : State) : bool := level_eqb (out_beakerDoor (board st)) HIGH.

(** The crystal lock is energised while its output is driven [HIGH]. *)
Definition crystal_energised (st : State) : bool :=
  level_eqb (out_crystalDoor (board st)) HIGH.

Definition alchemyPower_of (inp : Inputs) : bool := level_eqb (digitalRead inp laserPin) LOW.
Definition doorClosed_of (inp : Inputs) : bool := level_eqb (digitalRead inp limitSwitch) LOW.

(** The inputs of a tick: the two sensors, one answer per reader, no remote
    command. *)
Definition sensors (power door : bool) (r0 r1 : Reading) : Inputs :=
  mkInputs (fun pin => if pin =? laserPin then (if power then LOW else HIGH)
                       else if pin =? limitSwitch then (if door then LOW else HIGH)
                       else HIGH)
           (fun i => match i with O => r0 | _ => r1 end)
           [].

Definition tag (u : Uid) : Reading := mkReading ISO15693_EC_OK u.
Definition no_tag (garbage : Uid) : Reading := mkReading EC_NO_CARD garbage.

Definition patterns_stopped (st : State) : bool :=
  negb (active (LS1_ st)) && negb (active (LS2_ st))
  && negb (active (LS3_ st)) && negb (active (LS4_ st)).

Definition strips_dark (st : State) : bool :=
  dark (LS1_ st) && dark (LS2_ st) && dark (LS3_ st) && dark (LS4_ st).

(** * Definitions used in the statements and in the proofs *)

(** ** Identifiers and C strings *)

(** The bytes of a C string: what precedes the first NUL. *)
Fixpoint upto_nul (l : list byte) : list byte :=
  match l with
  | [] => []
  | x :: r => if Byte.eqb x x00 then [] else x :: upto_nul r
  end.

(** ** What [onReset], [onSolve] and [gameOver] do to a state *)

Definition reset_lights (l : Strips) : Strips :=
  mkStrips
    (ColorSet black Strip1Start Strip1Length (set_ActivePattern none (LS1 l)))
    (ColorSet black Strip2Start Strip2Length (set_ActivePattern none (LS2 l)))
    (ColorSet black Strip3Start Strip3Length (set_ActivePattern none (LS3 l)))
    (ColorSet black Strip4Start Strip4Length (set_ActivePattern none (LS4 l))).

(** One pass of the wait loop of [onSolve], on the strips. *)
Definition wait_pass (l : Strips) : Strips :=
  mkStrips (LS1 l) (Update (LS2 l)) (Update (LS3 l)) (Update (LS4 l)).

Definition solve_lights (l : Strips) : Strips :=
  let l1 :=
    Nat.iter wait_passes wait_pass
      (mkStrips (LS1 l)
         (AcceleratingSequence (Color 255 0 0) Strip2Start Strip2Length forward (LS2 l))
         (AcceleratingSequence (Color 128 0 128) Strip3Start Strip3Length forward (LS3 l))
         (AcceleratingSequence (Color 0 0 255) Strip4Start Strip4Length reverse (LS4 l))) in
  mkStrips
    (ColorSet green Strip1Start Strip1Length
       (ColorSet black Strip1Start Strip1Length (set_ActivePattern none (LS1 l1))))
    (ColorSet green Strip2Start Strip2Length
       (ColorSet black Strip2Start Strip2Length (set_ActivePattern none (LS2 l1))))
    (ColorSet purple Strip3Start Strip3Length
       (ColorSet black Strip3Start Strip3Length (set_ActivePattern none (LS3 l1))))
    (ColorSet green Strip4Start Strip4Length
       (ColorSet black Strip4Start Strip4Length (set_ActivePattern none (LS4 l1)))).

(** ** Statements that keep a relation between the states before and after *)

(** [s] relates every state to the state it leaves. *)
Definition respects (R : State -> State -> Prop) (s : stmt) : Prop :=
  forall st, R st (s st).

(** ** The crystal lock is only ever pulsed *)

Definition crystal_write (v : level) (e : PinEvent) : bool :=
  (ev_pin e =? crystalDoor) && level_eqb (ev_level e) v.

(** In a list of pin events, the most recent first: every write of [HIGH] on
    the crystal lock has as its successor in time a write of [LOW] on the
    crystal lock, 10 ms later. *)
Fixpoint followed (l : list PinEvent) : bool :=
  match l with
  | e :: r =>
      match r with
      | e' :: _ =>
          implb (crystal_write HIGH e')
                (crystal_write LOW e && (ev_time e =? ev_time e' + 10))
      | [] => true
      end && followed r
  | [] => true
  end.

(** ... and the most recent write of all is not such a [HIGH]. *)
Definition pulsed (l : list PinEvent) : bool :=
  match l with
  | e :: _ => negb (crystal_write HIGH e)
  | [] => true
  end && followed l.

(** What a statement adds to the pin log is [pulsed], and a crystal output
    that was low before is low after. *)
Definition pulsing (st st' : State) : Prop :=
  (exists new, pinlog (board st') = new ++ pinlog (board st) /\ pulsed new = true)
  /\ (out_crystalDoor (board st) = LOW -> out_crystalDoor (board st') = LOW).

(** Statements that change nothing on the board but the clock. *)
Definition quiet (s : stmt) : Prop :=
  forall st,
    pinlog (board (s st)) = pinlog (board st)
    /\ out_beakerDoor (board (s st)) = out_beakerDoor (board st)
    /\ out_crystalDoor (board (s st)) = out_crystalDoor (board st).

(** ** [loop()] as sampling, dispatch on the state, and the common tail *)

Definition sample (inp : Inputs) : stmt :=
  set_alchemyPower (alchemyPower_of inp) ;; set_doorClosed (doorClosed_of inp).

Definition handler (inp : Inputs) (p : PuzzleState) : stmt :=
  match p with
  | Initializing => case_Initializing
  | Unpowered => case_Unpowered
  | Powered => case_Powered inp
  | Solved => case_Solved inp
  | GameOver => case_GameOver inp
  end.

Definition loop_tail (inp : Inputs) : stmt :=
  delay 50 ;; client_loop inp ;;
  on_LS1 Update ;; on_LS2 Update ;; on_LS3 Update ;; on_LS4 Update.

(** No remote command arrives during the tick. *)
Definition no_command (inp : Inputs) : bool :=
  match mqtt inp with [] => true | _ :: _ => false end.

(** In the [Solved] and [GameOver] cases: the buffer of some reader compares
    equal to [resetUid] after [getInventory]. *)
Definition reset_seen (inp : Inputs) : bool :=
  existsb (fun i => same_uid (thisUid (getInventory inp i)) resetUid)
          (List.seq 0 numReaders).

(** ** Statements that only touch the strips *)

(** Everything in the state but the strips. *)
Definition core (st : State) :=
  (puzzleState st, solvedMillis st, currentMillis st, lastUid st,
   beakersCorrect st, alchemyPower st, doorClosed st, board st).

Definition lights_only (st st' : State) : Prop := core st' = core st.

(** ** The reader loop of the [Powered] case *)

(** [getInventory] of reader [i] succeeded ... *)
Definition ok_read (inp : Inputs) (i : nat) : bool :=
  rc (getInventory inp i) =? ISO15693_EC_OK.

(** ... and gave the reset tag, or the tag that is correct for reader [i]. *)
Definition reads_reset (inp : Inputs) (i : nat) : bool :=
  ok_read inp i && same_uid (thisUid (getInventory inp i)) resetUid.

Definition reads_correct (inp : Inputs) (i : nat) : bool :=
  ok_read inp i && same_uid (thisUid (getInventory inp i)) (nth i correctUid noUid).

(** ** Token classification *)

Inductive Classification := AllCorrect | Incorrect | ResetRequested.

Definition Uid_eq_dec (a b : Uid) : {a = b} + {a <> b}.
Proof. decide equality; apply Byte.byte_eq_dec. Defined.

Definition Uid_eqb (a b : Uid) : bool := if Uid_eq_dec a b then true else false.

(** The rule of the specification, in its words: a reading is an identifier
    or absent; [ResetRequested] if any reading equals the reset identifier;
    otherwise [AllCorrect] only if every reader's reading equals that reader's
    correct identifier; otherwise [Incorrect]. *)
Fixpoint every_correct (readings : list (option Uid)) (correct : list Uid) : bool :=
  match readings, correct with
  | [], [] => true
  | Some u :: rs, c :: cs => Uid_eqb u c && every_correct rs cs
  | _, _ => false
  end.

Definition classify_spec (readings : list (option Uid)) : Classification :=
  if existsb (fun r => match r with Some u => Uid_eqb u resetUid | None => false end)
             readings
  then ResetRequested
  else if every_correct readings correctUid then AllCorrect
  else Incorrect.

(** What a reader reports in a tick, as the specification sees it: the
    identifier read, or absent when the read failed. *)
Definition poll (r : Reading) : option Uid :=
  if rc r =? ISO15693_EC_OK then Some (thisUid r) else None.

Definition polled (inp : Inputs) : list (option Uid) :=
  map (fun i => poll (getInventory inp i)) (List.seq 0 numReaders).

(** The effect of the reader loop on the state: nothing but [lastUid] and
    [beakersCorrect] changed ([onReset] did not run) ... *)
Definition no_reset_ran (st st' : State) : Prop :=
  puzzleState st' = puzzleState st /\ lights st' = lights st /\ board st' = board st.

(** ... or [onReset] ran: the state is [Unpowered], the locks are released,
    the patterns stopped, the crystal lock was pulsed. *)
Definition reset_ran (st st' : State) : Prop :=
  puzzleState st' = Unpowered
  /\ out_beakerDoor (board st') = LOW
  /\ patterns_stopped st' = true
  /\ exists new, new <> [] /\ pinlog (board st') = new ++ pinlog (board st).

(** ** Remote commands *)

Definition bytes_eqb (a b : list byte) : bool :=
  if list_eq_dec Byte.byte_eq_dec a b then true else false.

(** The payload, cut at its first NUL byte and lower-cased, spells [name]. *)
Definition is_command (name : string) (m : list byte) : bool :=
  bytes_eqb (upto_nul (map tolower m)) (list_byte_of_string name).

(** ** The beaker lock in [Unpowered] and [GameOver] *)

(** Between two states the level of the beaker lock is the same and no
    [digitalWrite] on its pin was logged. *)
Definition beaker_untouched (st st' : State) : Prop :=
  out_beakerDoor (board st') = out_beakerDoor (board st)
  /\ exists new, pinlog (board st') = new ++ pinlog (board st)
                 /\ forallb (fun e => negb (ev_pin e =? beakerDoor)) new = true.

(** No remote "reset" arrives during the tick; any other message may. *)
Definition no_reset_command (inp : Inputs) : bool :=
  forallb (fun m => negb (is_command "reset" m)) (mqtt inp).

(** A tick of the frame condition: the state is [Unpowered] or [GameOver]
    and [onReset] does not run, that is, no remote "reset" arrives and, in
    [GameOver], no reader buffer holds the reset identifier.  Any other
    remote message may arrive, "solve" included. *)
Definition frame_tick (inp : Inputs) (st : State) : bool :=
  no_reset_command inp
  && match puzzleState st with
     | Unpowered => true
     | GameOver => negb (reset_seen inp)
     | _ => false
     end.

Fixpoint frame_run (ins : list Inputs) (st : State) : bool :=
  match ins with
  | [] => true
  | inp :: rest => frame_tick inp st && frame_run rest (loop inp st)
  end.

(** The conditions under which a tick writes the beaker lock: the
    [Initializing] case; in [Powered], a reset tag read or the engage branch
    (power, both tags correct, door open); in [Solved], the dwell elapsed or
    a reset identifier in a reader buffer; in [GameOver], the latter; or a
    remote "reset". *)
Definition may_write_beaker (inp : Inputs) (st : State) : bool :=
  negb (no_reset_command inp)
  || match puzzleState st with
     | Initializing => true
     | Unpowered => false
     | Powered =>
         reads_reset inp 0 || reads_reset inp 1
         || (alchemyPower_of inp && negb (doorClosed_of inp)
             && (reads_correct inp 0 && reads_correct inp 1))
     | Solved => (u32 (millis st - solvedMillis st) >? 1800000) || reset_seen inp
     | GameOver => reset_seen inp
     end.

(** ** Ticks without power *)

(** Without power before, there is none after and the beaker lock is at the
    same level. *)
Definition dead_frame (st st' : State) : Prop :=
  alchemyPower st = false ->
  alchemyPower st' = false /\ out_beakerDoor (board st') = out_beakerDoor (board st).

(** * Scenarios *)

Definition correct0 : Uid := nth 0 correctUid noUid.
Definition correct1 : Uid := nth 1 correctUid noUid.

(** A reader without a tag: the read fails, the buffer holds zeros. *)
Definition absent : Reading := no_tag noUid.

Definition tick_idle : Inputs := sensors false false absent absent.
Definition tick_power : Inputs := sensors true false absent absent.
Definition tick_correct_open : Inputs := sensors true false (tag correct0) (tag correct1).
Definition tick_correct_closed : Inputs := sensors true true (tag correct0) (tag correct1).
Definition tick_power_lost : Inputs := sensors false false (tag correct0) (tag correct1).
Definition tick_reset_tag : Inputs := sensors true false (tag resetUid) (tag correct1).
(** Both reads fail; the buffer of reader 0 is chosen to hold the reset
    identifier. *)
Definition tick_failed_read : Inputs := sensors false false (no_tag resetUid) absent.

(** Idle ticks in which a message arrives: one the sketch does not know, and
    "solve". *)
Definition tick_hello : Inputs :=
  mkInputs (digitalRead tick_idle) (getInventory tick_idle)
           [list_byte_of_string "hello"].
Definition tick_remote_solve : Inputs :=
  mkInputs (digitalRead tick_idle) (getInventory tick_idle)
           [list_byte_of_string "solve"].

(** [Powered], just after the laser was detected. *)
Definition to_powered : list Inputs := [tick_idle; tick_power].
Definition st_powered : State := Eval vm_compute in run to_powered booted.

(** [Powered], beakers correct, door open: the beaker lock is engaged. *)
Definition to_locked : list Inputs := to_powered ++ [tick_correct_open].
Definition st_locked : State := Eval vm_compute in run to_locked booted.

(** [Solved], just after the solve sequence: the door was closed next. *)
Definition to_solved : list Inputs := to_locked ++ [tick_correct_closed].
Definition st_solved : State := Eval vm_compute in run to_solved booted.

(** [Solved], at the start of the tick in which exactly 1,800,000 ms have
    passed since the solve timestamp (ticks in [Solved] last 50 ms). *)
Definition to_dwell : list Inputs := to_solved ++ repeat tick_idle (N.to_nat 35999).
Definition st_dwell : State := Eval vm_compute in run to_dwell booted.

(** [Unpowered] with the beaker lock still engaged: power was lost. *)
Definition st_power_lost : State := Eval vm_compute in loop tick_power_lost st_locked.

(** [GameOver]: two ticks after [st_dwell]. *)
Definition st_expired : State := Eval vm_compute in loop tick_idle (loop tick_idle st_dwell).

(** The payload "solve", a NUL byte, "A": seven bytes. *)
Definition nul_payload : list byte := list_byte_of_string "solve" ++ [x00; x41].

(** A tick in which the message "Reset" arrives while the laser is seen, the
    door is closed and both correct tags are read. *)
Definition tick_remote_reset : Inputs :=
  mkInputs (digitalRead tick_correct_closed) (getInventory tick_correct_closed)
           [list_byte_of_string "Reset"].

(** [Solved] 1000 ms before the 32-bit counter wraps, looked at 1,800,001 ms
    later. *)
Definition st_wrapped : State :=
  mkState Solved (u32 (2 ^ 32 - 1000)) 0 [noUid; noUid] true true true
          (lights st_solved) (mkBoard (2 ^ 32 - 1000 + 1800001) LOW LOW []).

(** * The rest of [loop()]: definitions

    What the statements about the remaining behaviour of [loop()] are
    written with: the transition function, the time a tick takes, the
    record of the last identifiers, and the blocks of the [Powered] case. *)

(** ** The transition function *)

(** Both readers returned their own correct identifier; some reader returned
    the reset identifier. *)
Definition both_correct (inp : Inputs) : bool :=
  reads_correct inp 0 && reads_correct inp 1.

Definition reset_read (inp : Inputs) : bool :=
  reads_reset inp 0 || reads_reset inp 1.

(** The state in which the case of [loop()] taken in state [p] leaves the
    sketch, from the two sensors, the readers and the time elapsed since the
    solve timestamp. *)
Definition decide_state (inp : Inputs) (p : PuzzleState) (power door : bool)
    (elapsed : Z) : PuzzleState :=
  match p with
  | Initializing => Unpowered
  | Unpowered => if power then Powered else Unpowered
  | Powered =>
      if reset_read inp || negb power then Unpowered
      else if both_correct inp && door then Solved
      else Powered
  | Solved =>
      if reset_seen inp then Unpowered
      else if elapsed >? 1800000 then GameOver
      else Solved
  | GameOver => if reset_seen inp then Unpowered else GameOver
  end.

Definition next_state (inp : Inputs) (st : State) : PuzzleState :=
  decide_state inp (puzzleState st) (alchemyPower_of inp) (doorClosed_of inp)
               (u32 (millis st - solvedMillis st)).

(** The effect of one remote message on the state variable: "solve" and
    "reset" override it, anything else leaves it. *)
Definition command_state (m : list byte) (p : PuzzleState) : PuzzleState :=
  if is_command "solve" m then Solved
  else if is_command "reset" m then Unpowered
  else p.

Definition after_commands (ms : list (list byte)) (p : PuzzleState) : PuzzleState :=
  fold_left (fun q m => command_state m q) ms p.

(** The ticks it takes to reach [Solved] once the laser is seen, the door is
    closed and both correct tags are in place. *)
Definition ticks_to_solve (p : PuzzleState) : nat :=
  match p with
  | Initializing => 3
  | Unpowered => 2
  | Powered => 1
  | Solved | GameOver => 0
  end.

(** ** The time a tick takes *)

(** The number of readers that returned the reset identifier in the
    [Powered] case, and of reader buffers that hold it in the [Solved] and
    [GameOver] cases: [onReset] runs once for each. *)
Definition reset_count (inp : Inputs) : Z :=
  (if reads_reset inp 0 then 1 else 0) + (if reads_reset inp 1 then 1 else 0).

Definition seen_count (inp : Inputs) : Z :=
  (if same_uid (thisUid (getInventory inp 0)) resetUid then 1 else 0)
  + (if same_uid (thisUid (getInventory inp 1)) resetUid then 1 else 0).

(** The time spent in the case of [loop()] taken in state [p], in ms:
    [onReset] blocks for 120 ms, [onSolve] for 5160 ms, the red flash for
    2000 ms, the power-loss block for 200 ms. *)
Definition handler_ms (inp : Inputs) (p : PuzzleState) (power door : bool) : Z :=
  match p with
  | Initializing => 0
  | Unpowered => 100
  | Powered =>
      50
      + (if reset_read inp then 120 * reset_count inp + 2000
         else if both_correct inp then (if door && power then 5160 else 0)
         else 2000)
      + (if power then 0 else 200)
  | Solved => 120 * seen_count inp
  | GameOver => 120 * seen_count inp + 1000
  end.

(** ... and in one execution of [loop()] without its remote commands. *)
Definition tick_ms (inp : Inputs) (st : State) : Z :=
  handler_ms inp (puzzleState st) (alchemyPower_of inp) (doorClosed_of inp) + 50.

Definition command_ms (m : list byte) : Z :=
  if is_command "solve" m then 5160
  else if is_command "reset" m then 120
  else 0.

Definition commands_ms (ms : list (list byte)) : Z :=
  fold_right Z.add 0 (map command_ms ms).

(** ** The blocks of the [Powered] case *)

(** The power-loss block that closes the [Powered] case. *)
Definition power_loss : stmt :=
  on_LS1 (set_ActivePattern none) ;;
  delay 50 ;;
  on_LS1 (ColorSet black Strip1Start Strip1Length) ;;
  on_LS1 show ;;
  on_LS1 (set_ActivePattern none) ;;
  delay 50 ;;
  on_LS2 (ColorSet black Strip2Start Strip2Length) ;;
  on_LS2 show ;;
  on_LS2 (set_ActivePattern none) ;;
  delay 50 ;;
  on_LS3 (ColorSet black Strip3Start Strip3Length) ;;
  on_LS3 show ;;
  on_LS3 (set_ActivePattern none) ;;
  delay 50 ;;
  on_LS4 (ColorSet black Strip4Start Strip4Length) ;;
  on_LS4 show ;;
  set_puzzleState Unpowered.

Definition power_loss_lights (l : Strips) : Strips :=
  mkStrips
    (set_ActivePattern none
       (ColorSet black Strip1Start Strip1Length (set_ActivePattern none (LS1 l))))
    (set_ActivePattern none (ColorSet black Strip2Start Strip2Length (LS2 l)))
    (set_ActivePattern none (ColorSet black Strip3Start Strip3Length (LS3 l)))
    (ColorSet black Strip4Start Strip4Length (LS4 l)).

(** The guarded start of a flash on the beaker strip:
    [if (LS1.ActivePattern != flash || LS1.Color1 != c) LS1.Flash(c, 80, ...)]. *)
Definition flash_unless (c : Z) (s : NeoPatterns.t) : NeoPatterns.t :=
  if negb (pattern_eqb (ActivePattern s) flash) || negb (Color1 s =? c)
  then Flash c 80 Strip1Start Strip1Length forward s
  else s.

(** ** The releases of the crystal latch *)

(** How many times the crystal lock output was driven [HIGH] so far: each
    time is one release of the latch. *)
Definition crystal_releases (st : State) : Z :=
  Z.of_nat (List.length (filter (crystal_write HIGH) (pinlog (board st)))).

(** The releases made by the case of [loop()] taken in state [p], and by one
    remote message. *)
Definition handler_releases (inp : Inputs) (p : PuzzleState) (power door : bool) : Z :=
  match p with
  | Powered =>
      if reset_read inp then reset_count inp
      else if both_correct inp && door && power then 1
      else 0
  | Solved | GameOver => seen_count inp
  | Initializing | Unpowered => 0
  end.

Definition command_releases (m : list byte) : Z :=
  if is_command "solve" m || is_command "reset" m then 1 else 0.

Definition commands_releases (ms : list (list byte)) : Z :=
  fold_right Z.add 0 (map command_releases ms).

(** ** Failed reads *)




(** ** The record of the last identifiers *)

(** What reader [i] reports in a tick, as [lastUid[i]] records it: the
    identifier read, zeros when the read failed. *)
Definition seen (inp : Inputs) (i : nat) : Uid :=
  match poll (getInventory inp i) with Some u => u | None => noUid end.

Definition same_uids (st st' : State) : Prop := lastUid st' = lastUid st.

(** ** The beaker lock *)

(** The engage branch of the [Powered] case is taken: laser seen, door open,
    both tags correct. *)
Definition engages (inp : Inputs) (st : State) : bool :=
  match puzzleState st with
  | Powered => alchemyPower_of inp && negb (doorClosed_of inp) && both_correct inp
  | _ => false
  end.

(** The beaker lock is not held after unless it was held before. *)
Definition not_raised (st st' : State) : Prop :=
  out_beakerDoor (board st') = HIGH -> out_beakerDoor (board st) = HIGH.

(** In [GameOver] the beaker lock is released. *)
Definition released_at_game_over (st : State) : Prop :=
  puzzleState st = GameOver -> out_beakerDoor (board st) = LOW.

(** * [showCurrentStatus()]: what it prints

    The serial line is not part of [State]; the text that
    [showCurrentStatus()] sends to it is a function of [lastUid]. *)

(** [Print::print(n, HEX)] of the Arduino core for a byte: the digits of [n]
    in base 16, upper case, without leading zeros. *)
Definition hex_digit (n : N) : ascii :=
  ascii_of_N (if (n <? 10)%N then 48 + n else 55 + n).

Definition print_HEX (b : byte) : string :=
  let n := Byte.to_N b in
  if (n <? 16)%N then String (hex_digit n) EmptyString
  else String (hex_digit (n / 16)) (String (hex_digit (n mod 16)) EmptyString).

(** [Print::print(i)] for an [int] that is not negative: its decimal digits. *)
Definition print_int (i : nat) : string := NilEmpty.string_of_uint (Nat.to_uint i).

(** [Print::println]: carriage return, line feed. *)
Definition crlf : string := String "013" (String "010" EmptyString).

(** The eight bytes of an identifier as the inner loop prints them: each in
    hexadecimal, with a "0" before a byte below 0x10. *)
Definition print_uid (u : Uid) : string :=
  fold_right append EmptyString
    (map (fun b => ((if (byte_val b <? 16)%Z then "0" else EmptyString)
                     ++ print_HEX b)%string)
         (bytes u)).

(** The line of reader [i]. *)
Definition status_line (lastUid : list Uid) (i : nat) : string :=
  let u := nth i lastUid noUid in
  ("Reader #" ++ print_int i ++ ": "
   ++ (if same_uid u noUid then "---"
       else print_uid u
            ++ (if same_uid u (nth i correctUid noUid) then " - CORRECT"
                else " - INCORRECT"))
   ++ crlf)%string.

(** Everything [showCurrentStatus()] sends to the serial line. *)
Definition showCurrentStatus_text (lastUid : list Uid) : string :=
  (fold_right append EmptyString (map (status_line lastUid) (List.seq 0 numReaders))
   ++ "---" ++ crlf)%string.

(** ** Reading the report back

    Two hexadecimal digits as a byte, and [n] such pairs in a row. *)
Definition hex_value (c : ascii) : N :=
  let n := N_of_ascii c in if (n <? 58)%N then n - 48 else n - 55.

Definition read_byte (s : string) : option (byte * string) :=
  match s with
  | String a (String b rest) =>
      match Byte.of_N (16 * hex_value a + hex_value b) with
      | Some x => Some (x, rest)
      | None => None
      end
  | _ => None
  end.

Fixpoint read_bytes (n : nat) (s : string) : option (list byte) :=
  match n with
  | O => Some []
  | S n' =>
      match read_byte s with
      | Some (x, rest) =>
          match read_bytes n' rest with
          | Some l => Some (x :: l)
          | None => None
          end
      | None => None
      end
  end.

(** * The network functions of [WifiFunctions.h]

    [setup()] calls [wifiSetup()] and [MQTTsetup()] before anything else.
    The WiFi radio and the PubSubClient object are outside the sketch; the
    model keeps what the sketch can observe of them and takes their answers
    from the environment.  Under [DEBUG], which the header defines. *)

Definition topic : string := "ToDevice/NameOfMachine".
Definition hostTopic : string := "ToHost/NameOfMachine".
Definition deviceID : string := "NameOfMachine".

(** What the sketch sends to the broker. *)
Inductive Packet :=
| Publish (to payload : string)
| Subscribe (to : string).

(** The radio and the MQTT client, as the sketch sees them: whether
    [WiFi.begin] was called, what [client.connected()] returns, the packets
    sent so far (the most recent first) and the time spent in [delay]. *)
Record Net := mkNet
  { wifi_begun : bool;
    connected : bool;
    sent : list Packet;
    waited : Z }.

Definition net_off : Net := mkNet false false [] 0.

Definition net_delay (ms : Z) (n : Net) : Net :=
  mkNet (wifi_begun n) (connected n) (sent n) (waited n + ms).

(** [client.publish] and [client.subscribe] of PubSubClient send a packet
    only while the client is connected. *)
Definition publish (to payload : string) (n : Net) : Net :=
  if connected n
  then mkNet (wifi_begun n) true (Publish to payload :: sent n) (waited n)
  else n.

Definition subscribe (to : string) (n : Net) : Net :=
  if connected n
  then mkNet (wifi_begun n) true (Subscribe to :: sent n) (waited n)
  else n.

(** [client.connect(deviceID)]: the outcome is the environment's, and
    [client.connected()] answers it until the next attempt (the link does
    not drop inside these functions). *)
Definition connect (ok : bool) (n : Net) : Net :=
  mkNet (wifi_begun n) ok (sent n) (waited n).

(** The loops of this file wait on the environment.  A run of the
    environment is the list of answers it gives, in order: [polls] to
    [WiFi.status() == WL_CONNECTED], [attempts] to [client.connect].  A
    function returns [Some] of the state it leaves and of the answers not
    yet consumed, or [None] when the answers run out while it is still
    waiting. *)
Fixpoint wait_wifi (polls : list bool) (n : Net) : option (Net * list bool) :=
  match polls with
  | [] => None
  | up :: rest => if up then Some (n, rest) else wait_wifi rest (net_delay 500 n)
  end.

Definition wifiSetup (polls : list bool) (n : Net) : option (Net * list bool) :=
  wait_wifi polls (mkNet true (connected n) (sent n) (waited n)).

Fixpoint reconnectMQTT (attempts : list bool) (n : Net) : option (Net * list bool) :=
  if connected n then Some (n, attempts)
  else
    match attempts with
    | [] => None
    | ok :: rest =>
        if ok
        then reconnectMQTT rest
               (subscribe topic
                  (publish hostTopic "Alchemy Machine Connected!" (connect true n)))
        else reconnectMQTT rest (net_delay 5000 (connect false n))
    end.

Definition MQTTsetup (attempts : list bool) (n : Net) : option (Net * list bool) :=
  reconnectMQTT attempts (subscribe topic n).

(** [handleWifiReconnect()] polls the radio once and calls [wifiSetup()]
    when it is not connected. *)
Definition handleWifiReconnect (polls : list bool) (n : Net)
    : option (Net * list bool) :=
  match polls with
  | [] => None
  | up :: rest => if up then Some (n, rest) else wifiSetup rest n
  end.

Definition handleMQTTReconnect (attempts : list bool) (n : Net)
    : option (Net * list bool) :=
  if negb (connected n) then reconnectMQTT attempts n else Some (n, attempts).

(** The first lines of [setup()]: [wifiSetup(); MQTTsetup();]. *)
Definition setup_network (polls attempts : list bool) (n : Net)
    : option (Net * (list bool * list bool)) :=
  match wifiSetup polls n with
  | None => None
  | Some (n1, polls') =>
      match MQTTsetup attempts n1 with
      | None => None
      | Some (n2, attempts') => Some (n2, (polls', attempts'))
      end
  end.

(** The answers before the first [true], and after it. *)
Fixpoint failures (l : list bool) : nat :=
  match l with
  | false :: r => S (failures r)
  | _ => O
  end.

Fixpoint after_success (l : list bool) : list bool :=
  match l with
  | [] => []
  | true :: r => r
  | false :: r => after_success r
  end.

(** * Properties *)

Arguments while_ : simpl never.
Arguments u32 : simpl never.

(** ** Identifiers and C strings *)

Lemma byte_val_inj (x y : byte) : byte_val x = byte_val y -> x = y.
Proof.
  unfold byte_val. intros H. apply N2Z.inj in H.
  pose proof (Byte.of_to_N x) as Hx. rewrite H, Byte.of_to_N in Hx.
  congruence.
Qed.

Lemma byte_eqb_refl (x : byte) : Byte.eqb x x = true.
Proof. now apply Byte.byte_dec_lb. Qed.

Lemma memcmp_cons (x y : byte) (a b : list byte) (n : nat) :
  memcmp (x :: a) (y :: b) (S n) = 0 <-> x = y /\ memcmp a b n = 0.
Proof.
  simpl. destruct (Byte.eqb x y) eqn:E.
  - apply Byte.byte_dec_bl in E. tauto.
  - apply Byte.eqb_false in E. split.
    + intros H. exfalso. apply E, byte_val_inj. lia.
    + intros [H _]. contradiction.
Qed.

Lemma same_uid_iff (a b : Uid) : same_uid a b = true <-> a = b.
Proof.
  unfold same_uid. rewrite Z.eqb_eq. destruct a, b. unfold bytes.
  cbn [u0 u1 u2 u3 u4 u5 u6 u7].
  repeat rewrite memcmp_cons. split.
  - intros (-> & -> & -> & -> & -> & -> & -> & -> & _). reflexivity.
  - intros H. injection H as -> -> -> -> -> -> -> ->. cbn. tauto.
Qed.


Lemma same_uid_neq (a b : Uid) : a <> b -> same_uid a b = false.
Proof.
  intros H. destruct (same_uid a b) eqn:E; [|reflexivity].
  apply same_uid_iff in E. contradiction.
Qed.

Lemma byte_diff (x y : byte) : Byte.eqb x y = false -> byte_val x - byte_val y <> 0.
Proof.
  intros E H. apply Byte.eqb_false in E. apply E, byte_val_inj. lia.
Qed.

Lemma strcmp_terminated (a b : list byte) :
  upto_nul b = b ->
  strcmp (a ++ [x00]) (b ++ [x00]) = 0 <-> upto_nul a = b.
Proof.
  revert b. induction a as [|x a IH]; intros [|y b] Hb; cbn [app strcmp upto_nul] in *.
  - rewrite byte_eqb_refl. tauto.
  - destruct (Byte.eqb y x00) eqn:Ey; [discriminate|].
    destruct (Byte.eqb x00 y) eqn:E0.
    + apply Byte.byte_dec_bl in E0. subst y. discriminate.
    + split; [|discriminate]. intros H. now apply byte_diff in H.
  - destruct (Byte.eqb x x00) eqn:Ex; [tauto|].
    split; [|discriminate]. intros H. now apply byte_diff in H.
  - destruct (Byte.eqb y x00) eqn:Ey; [discriminate|].
    injection Hb as Hb.
    destruct (Byte.eqb x y) eqn:Exy.
    + apply Byte.byte_dec_bl in Exy. subst y. rewrite Ey.
      rewrite (IH b Hb). split; congruence.
    + split.
      * intros H. now apply byte_diff in H.
      * intros H. apply Byte.eqb_false in Exy.
        destruct (Byte.eqb x x00); congruence.
Qed.

(** ** Symbolic execution of statements on a state given by its fields *)

Ltac exec :=
  cbv beta iota zeta delta
    [seq when ifelse skip for_ showCurrentStatus delay elapse digitalWrite millis
     set_puzzleState set_solvedMillis set_currentMillis set_lastUid
     set_beakersCorrect set_alchemyPower set_doorClosed set_lights set_board
     on_LS1 on_LS2 on_LS3 on_LS4 LS1_ LS2_ LS3_ LS4_
     puzzleState solvedMillis currentMillis lastUid beakersCorrect alchemyPower
     doorClosed lights board clock out_beakerDoor out_crystalDoor pinlog
     LS1 LS2 LS3 LS4 fold_left List.seq numReaders];
  cbn [Z.eqb Pos.eqb beakerDoor crystalDoor].

Ltac destruct_state st :=
  let l := fresh "l" in let b := fresh "b" in
  destruct st as [? ? ? ? ? ? ? l b]; destruct l as [? ? ? ?]; destruct b as [? ? ? ?].

(** ** What [onReset], [onSolve] and [gameOver] do to a state *)

Lemma onReset_eq (st : State) :
  onReset st =
  mkState Unpowered (solvedMillis st) (currentMillis st) (lastUid st)
          (beakersCorrect st) (alchemyPower st) (doorClosed st)
          (reset_lights (lights st))
          (mkBoard (clock (board st) + 120) LOW LOW
                   (mkEv (clock (board st) + 20) beakerDoor LOW
                    :: mkEv (clock (board st) + 10) crystalDoor LOW
                    :: mkEv (clock (board st)) crystalDoor HIGH
                    :: pinlog (board st))).
Proof.
  destruct_state st. unfold onReset, reset_lights, show. exec.
  repeat (f_equal; try lia).
Qed.

Lemma while_S (f : nat) (c : State -> bool) (body : stmt) (st : State) :
  while_ (S f) c body st = if c st then while_ f c body (body st) else st.
Proof. reflexivity. Qed.

Lemma u32_elapsed (c0 k : Z) : 0 <= k < 2 ^ 32 -> u32 (u32 (c0 + k) - u32 c0) = k.
Proof.
  intros Hk. unfold u32.
  rewrite Zminus_mod_idemp_l, Zminus_mod_idemp_r.
  replace (c0 + k - c0) with k by lia. now apply Z.mod_small.
Qed.

(** The wait loop started at clock [c0], [k] passes done, [n] to go: it makes
    exactly the [n] passes left, and stops because the 5000 ms are over. *)
Lemma wait_loop_eq (c0 : Z) (n : nat) : forall (k : nat) (st : State),
  (k + n = wait_passes)%nat ->
  clock (board st) = c0 + Z.of_nat k ->
  while_ n (fun s => u32 (millis s - u32 c0) <? 5000)
           (on_LS2 Update ;; on_LS3 Update ;; on_LS4 Update ;; elapse 1) st
  = set_lights (Nat.iter n wait_pass (lights st)) (elapse (Z.of_nat n) st).
Proof.
  induction n as [|n IH]; intros k st Hk Hc.
  - destruct_state st. exec. cbn [Nat.iter nat_rect Z.of_nat].
    now rewrite Z.add_0_r.
  - assert (Hcond : (u32 (millis st - u32 c0) <? 5000) = true).
    { unfold millis. rewrite Hc, u32_elapsed by (unfold wait_passes in Hk; lia).
      apply Z.ltb_lt. unfold wait_passes in Hk. lia. }
    rewrite while_S. cbv beta. rewrite Hcond. clear Hcond.
    destruct_state st. cbn [board clock] in Hc.
    rewrite (IH (S k)).
    + rewrite Nat.iter_succ_r. unfold wait_pass at 2. exec.
      repeat (f_equal; try lia).
    + lia.
    + exec. lia.
Qed.

Lemma wait_loop_start (st : State) :
  while_ wait_passes (fun s => u32 (millis s - millis st) <? 5000)
         (on_LS2 Update ;; on_LS3 Update ;; on_LS4 Update ;; elapse 1) st
  = set_lights (Nat.iter wait_passes wait_pass (lights st)) (elapse 5000 st).
Proof.
  apply (wait_loop_eq (clock (board st)) wait_passes 0); [reflexivity | cbn; lia].
Qed.

Lemma onSolve_eq (st : State) :
  onSolve st =
  mkState Solved (u32 (clock (board st) + 5160)) (currentMillis st) (lastUid st)
          (beakersCorrect st) (alchemyPower st) (doorClosed st)
          (solve_lights (lights st))
          (mkBoard (clock (board st) + 5160) (out_beakerDoor (board st)) LOW
                   (mkEv (clock (board st) + 5160) crystalDoor LOW
                    :: mkEv (clock (board st) + 5150) crystalDoor HIGH
                    :: pinlog (board st))).
Proof.
  destruct_state st. unfold onSolve, seq. cbv beta zeta.
  rewrite wait_loop_start. unfold solve_lights, show. exec.
  repeat (f_equal; try lia).
Qed.

Lemma gameOver_eq (st : State) :
  gameOver st =
  mkState GameOver (solvedMillis st) (currentMillis st) (lastUid st)
          (beakersCorrect st) (alchemyPower st) (doorClosed st) (lights st)
          (mkBoard (clock (board st)) LOW (out_crystalDoor (board st))
                   (mkEv (clock (board st)) beakerDoor LOW :: pinlog (board st))).
Proof. destruct_state st. unfold gameOver. exec. reflexivity. Qed.

(** ** Statements that keep a relation between the states before and after *)

Section Respects.

Variable R : State -> State -> Prop.
Hypothesis R_refl : forall st, R st st.
Hypothesis R_trans : forall a b c, R a b -> R b c -> R a c.

Lemma respects_skip : respects R skip.
Proof. intros st. apply R_refl. Qed.

Lemma respects_seq (a b : stmt) : respects R a -> respects R b -> respects R (a ;; b).
Proof. intros Ha Hb st. unfold seq. eapply R_trans; [apply Ha | apply Hb]. Qed.

Lemma respects_ifelse (c : State -> bool) (a b : stmt) :
  respects R a -> respects R b -> respects R (ifelse c a b).
Proof. intros Ha Hb st. unfold ifelse. destruct (c st); [apply Ha | apply Hb]. Qed.

Lemma respects_when (c : State -> bool) (a : stmt) :
  respects R a -> respects R (when c a).
Proof. intros Ha. apply respects_ifelse; [exact Ha | exact respects_skip]. Qed.

Lemma respects_fold {A} (f : A -> stmt) (l : list A) :
  (forall x, respects R (f x)) -> respects R (fun st => fold_left (fun s x => f x s) l st).
Proof.
  intros Hf. induction l as [|x l IH]; intros st; cbn.
  - apply R_refl.
  - eapply R_trans; [apply Hf | apply IH].
Qed.

Lemma respects_for (n : nat) (body : nat -> stmt) :
  (forall i, respects R (body i)) -> respects R (for_ n body).
Proof. intros Hb. unfold for_. now apply respects_fold. Qed.


End Respects.

(** ** The crystal lock is only ever pulsed *)

Lemma pulsed_app (a b : list PinEvent) :
  pulsed a = true -> pulsed b = true -> pulsed (a ++ b) = true.
Proof.
  destruct a as [|e a]; [intros _ H; exact H|].
  unfold pulsed. cbn [app]. intros Ha Hb.
  apply andb_true_iff in Ha as [Ha1 Ha2]. rewrite Ha1. cbn [andb].
  apply andb_true_iff in Hb as [Hb1 Hb2].
  clear Ha1. revert e Ha2. induction a as [|e' a IH]; intros e Ha2.
  - cbn [app]. destruct b as [|e'' b]; [reflexivity|].
    cbn [followed] in *. apply negb_true_iff in Hb1. rewrite Hb1. cbn [implb andb].
    exact Hb2.
  - cbn [app followed] in *. apply andb_true_iff in Ha2 as [H1 H2].
    rewrite H1. cbn [andb]. apply (IH e' H2).
Qed.

Lemma pulsing_refl (st : State) : pulsing st st.
Proof. split; [exists []; split; reflexivity | tauto]. Qed.

Lemma pulsing_trans (a b c : State) : pulsing a b -> pulsing b c -> pulsing a c.
Proof.
  intros [(n1 & E1 & P1) L1] [(n2 & E2 & P2) L2]. split; [|tauto].
  exists (n2 ++ n1). split.
  - rewrite E2, E1. apply app_assoc.
  - now apply pulsed_app.
Qed.

Ltac quiet_prim := intros st; repeat split; reflexivity.

Lemma quiet_set_puzzleState v : quiet (set_puzzleState v).
Proof. quiet_prim. Qed.
Lemma quiet_set_solvedMillis v : quiet (set_solvedMillis v).
Proof. quiet_prim. Qed.
Lemma quiet_set_currentMillis : quiet (fun st => set_currentMillis (millis st) st).
Proof. quiet_prim. Qed.
Lemma quiet_set_lastUid i v : quiet (set_lastUid i v).
Proof. quiet_prim. Qed.
Lemma quiet_set_beakersCorrect v : quiet (set_beakersCorrect v).
Proof. quiet_prim. Qed.
Lemma quiet_set_alchemyPower v : quiet (set_alchemyPower v).
Proof. quiet_prim. Qed.
Lemma quiet_set_doorClosed v : quiet (set_doorClosed v).
Proof. quiet_prim. Qed.
Lemma quiet_on_LS1 f : quiet (on_LS1 f).
Proof. quiet_prim. Qed.
Lemma quiet_on_LS2 f : quiet (on_LS2 f).
Proof. quiet_prim. Qed.
Lemma quiet_on_LS3 f : quiet (on_LS3 f).
Proof. quiet_prim. Qed.
Lemma quiet_on_LS4 f : quiet (on_LS4 f).
Proof. quiet_prim. Qed.
Lemma quiet_delay n : quiet (delay n).
Proof. quiet_prim. Qed.
Lemma quiet_showCurrentStatus : quiet showCurrentStatus.
Proof. quiet_prim. Qed.

Create HintDb quiet.
#[local] Hint Resolve quiet_set_puzzleState quiet_set_solvedMillis
  quiet_set_currentMillis quiet_set_lastUid quiet_set_beakersCorrect
  quiet_set_alchemyPower quiet_set_doorClosed quiet_on_LS1 quiet_on_LS2
  quiet_on_LS3 quiet_on_LS4 quiet_delay quiet_showCurrentStatus : quiet.

Lemma pulsing_quiet (s : stmt) : quiet s -> respects pulsing s.
Proof.
  intros H st. destruct (H st) as (E1 & _ & E2). split.
  - exists []. now rewrite E1.
  - now rewrite E2.
Qed.

Lemma pulsing_beakerDoor (v : level) : respects pulsing (digitalWrite beakerDoor v).
Proof.
  intros st. split; [|intros H; exact H].
  exists [mkEv (clock (board st)) beakerDoor v]. split; reflexivity.
Qed.

Lemma pulsing_onReset : respects pulsing onReset.
Proof.
  intros st. rewrite onReset_eq. split; [|reflexivity].
  eexists [_; _; _]. split; [reflexivity|].
  unfold pulsed, followed, crystal_write. cbn.
  now rewrite Z.eqb_refl.
Qed.

Lemma pulsing_onSolve : respects pulsing onSolve.
Proof.
  intros st. rewrite onSolve_eq. split; [|reflexivity].
  eexists [_; _]. split; [reflexivity|].
  unfold pulsed, followed, crystal_write. cbn.
  replace (clock (board st) + 5160) with (clock (board st) + 5150 + 10) by lia.
  now rewrite Z.eqb_refl.
Qed.

Ltac pulsing_steps :=
  repeat lazymatch goal with
    | |- respects _ onReset => apply pulsing_onReset
    | |- respects _ onSolve => apply pulsing_onSolve
    | |- respects _ (digitalWrite beakerDoor _) => apply pulsing_beakerDoor
    | |- respects _ (seq _ _) => apply (respects_seq pulsing pulsing_trans)
    | |- respects _ (when _ _) => apply (respects_when pulsing pulsing_refl)
    | |- respects _ (ifelse _ _ _) => apply (respects_ifelse pulsing)
    | |- respects _ skip => apply (respects_skip pulsing pulsing_refl)
    | |- respects _ (for_ _ _) =>
        apply (respects_for pulsing pulsing_refl pulsing_trans); intros ?
    | |- _ => solve [ apply pulsing_quiet; auto 1 with quiet nocore ]
    end.

Lemma pulsing_gameOver : respects pulsing gameOver.
Proof.
  unfold gameOver. pulsing_steps.
Qed.

Lemma pulsing_callback (m : list byte) : respects pulsing (callback m).
Proof.
  unfold callback.
  destruct (strcmp _ (cstr "solve") =? 0); [apply pulsing_onSolve|].
  destruct (strcmp _ (cstr "reset") =? 0); [apply pulsing_onReset|].
  apply (respects_skip pulsing pulsing_refl).
Qed.

Lemma pulsing_lights_off : respects pulsing lights_off_if_active.
Proof. unfold lights_off_if_active. pulsing_steps. Qed.

Lemma pulsing_read_Powered (inp : Inputs) (i : nat) :
  respects pulsing (read_Powered inp i).
Proof.
  unfold read_Powered.
  destruct (negb (rc (getInventory inp i) =? ISO15693_EC_OK)); pulsing_steps.
Qed.

Lemma pulsing_read_for_reset (inp : Inputs) (i : nat) :
  respects pulsing (read_for_reset inp i).
Proof. unfold read_for_reset. pulsing_steps. Qed.

Lemma pulsing_handler (inp : Inputs) (p : PuzzleState) :
  respects pulsing
    match p with
    | Initializing => case_Initializing
    | Unpowered => case_Unpowered
    | Powered => case_Powered inp
    | Solved => case_Solved inp
    | GameOver => case_GameOver inp
    end.
Proof.
  destruct p.
  - unfold case_Initializing. pulsing_steps. apply pulsing_lights_off.
  - unfold case_Unpowered. pulsing_steps. apply pulsing_lights_off.
  - unfold case_Powered. pulsing_steps. apply pulsing_read_Powered.
  - unfold case_Solved. pulsing_steps.
    + apply pulsing_gameOver.
    + apply pulsing_read_for_reset.
  - unfold case_GameOver. pulsing_steps.
    + apply pulsing_lights_off.
    + apply pulsing_read_for_reset.
Qed.

Lemma pulsing_loop (inp : Inputs) : respects pulsing (loop inp).
Proof.
  unfold loop. pulsing_steps.
  - intros st. generalize (pulsing_handler inp (puzzleState st) st).
    destruct (puzzleState st); intros H; exact H.
  - unfold client_loop.
    apply (respects_fold pulsing pulsing_refl pulsing_trans). apply pulsing_callback.
Qed.
Lemma run_app (a b : list Inputs) (st : State) : run (a ++ b) st = run b (run a st).
Proof. unfold run. apply fold_left_app. Qed.

Lemma crystal_low_run (ins : list Inputs) : forall st,
  out_crystalDoor (board st) = LOW -> out_crystalDoor (board (run ins st)) = LOW.
Proof.
  induction ins as [|inp ins IH]; intros st H; [exact H|].
  cbn. apply IH. now apply (pulsing_loop inp st).
Qed.

(** ** [loop()] as sampling, dispatch on the state, and the common tail *)

Lemma loop_unfold (inp : Inputs) (st : State) :
  loop inp st = loop_tail inp (handler inp (puzzleState st) (sample inp st)).
Proof.
  unfold loop, loop_tail, sample, seq, alchemyPower_of, doorClosed_of.
  cbn [puzzleState set_alchemyPower set_doorClosed].
  destruct (puzzleState st); reflexivity.
Qed.

Lemma seq_app (a b : stmt) (st : State) : (a ;; b) st = b (a st).
Proof. reflexivity. Qed.

Lemma for_readers (body : nat -> stmt) (st : State) :
  for_ numReaders body st = body 1%nat (body 0%nat st).
Proof. reflexivity. Qed.

Lemma client_loop_idle (inp : Inputs) (st : State) :
  no_command inp = true -> client_loop inp st = st.
Proof.
  unfold no_command, client_loop. destruct (mqtt inp); [reflexivity | discriminate].
Qed.

Lemma readers_no_reset (inp : Inputs) (st : State) :
  reset_seen inp = false -> for_ numReaders (read_for_reset inp) st = st.
Proof.
  unfold reset_seen. cbn [List.seq numReaders existsb]. intros H.
  apply orb_false_iff in H as [H0 H]. apply orb_false_iff in H as [H1 _].
  rewrite for_readers. unfold read_for_reset, when, ifelse, skip.
  now rewrite H0, H1.
Qed.

(** ** Statements that only touch the strips *)

Lemma lights_only_refl (st : State) : lights_only st st.
Proof. reflexivity. Qed.

Lemma lights_only_trans (a b c : State) :
  lights_only a b -> lights_only b c -> lights_only a c.
Proof. unfold lights_only. congruence. Qed.

Lemma lights_only_on_LS1 f : respects lights_only (on_LS1 f).
Proof. intros st. reflexivity. Qed.
Lemma lights_only_on_LS2 f : respects lights_only (on_LS2 f).
Proof. intros st. reflexivity. Qed.
Lemma lights_only_on_LS3 f : respects lights_only (on_LS3 f).
Proof. intros st. reflexivity. Qed.
Lemma lights_only_on_LS4 f : respects lights_only (on_LS4 f).
Proof. intros st. reflexivity. Qed.

Ltac lights_steps :=
  repeat lazymatch goal with
    | |- respects _ (seq _ _) => apply (respects_seq lights_only lights_only_trans)
    | |- respects _ (when _ _) => apply (respects_when lights_only lights_only_refl)
    | |- respects _ (ifelse _ _ _) => apply (respects_ifelse lights_only)
    | |- respects _ skip => apply (respects_skip lights_only lights_only_refl)
    | |- respects _ (on_LS1 _) => apply lights_only_on_LS1
    | |- respects _ (on_LS2 _) => apply lights_only_on_LS2
    | |- respects _ (on_LS3 _) => apply lights_only_on_LS3
    | |- respects _ (on_LS4 _) => apply lights_only_on_LS4
    end.


Lemma core_puzzleState (a b : State) : core a = core b -> puzzleState a = puzzleState b.
Proof. unfold core. congruence. Qed.

Lemma core_board (a b : State) : core a = core b -> board a = board b.
Proof. unfold core. congruence. Qed.

Lemma core_solvedMillis (a b : State) : core a = core b -> solvedMillis a = solvedMillis b.
Proof. unfold core. congruence. Qed.


Lemma loop_tail_core (inp : Inputs) (st : State) :
  no_command inp = true -> core (loop_tail inp st) = core (elapse 50 st).
Proof.
  intros H. unfold loop_tail, seq, delay. now rewrite client_loop_idle.
Qed.

(** ** The [Solved] case: the dwell test *)

Lemma case_Solved_state (inp : Inputs) (st : State) :
  reset_seen inp = false ->
  puzzleState (case_Solved inp st)
  = if u32 (millis st - solvedMillis st) >? 1800000 then GameOver else puzzleState st.
Proof.
  intros Hr. unfold case_Solved. rewrite !seq_app.
  rewrite readers_no_reset by exact Hr.
  unfold ifelse at 1. cbn [currentMillis solvedMillis set_currentMillis].
  destruct (u32 (millis st - solvedMillis st) >? 1800000); [reflexivity|].
  match goal with
  | |- puzzleState (?blk ?x) = _ =>
      assert (L : respects lights_only blk) by lights_steps;
      rewrite (core_puzzleState _ _ (L x))
  end.
  reflexivity.
Qed.

(** ** The reader loop of the [Powered] case *)

(** One pass of the loop body: [lastUid] is brought up to date,
    [beakersCorrect] is cleared unless the correct tag was read, and
    [onReset] runs when the reset tag was read. *)
Lemma read_Powered_eq (inp : Inputs) (i : nat) (st : State) :
  exists lu,
    read_Powered inp i st =
    (if reads_reset inp i then onReset else skip)
      (mkState (puzzleState st) (solvedMillis st) (currentMillis st) lu
               (if reads_correct inp i then beakersCorrect st else false)
               (alchemyPower st) (doorClosed st) (lights st) (board st)).
Proof.
  destruct_state st. unfold read_Powered, reads_reset, reads_correct, ok_read.
  cbv zeta.
  destruct (rc (getInventory inp i) =? ISO15693_EC_OK); cbn [negb andb].
  - destruct (same_uid (thisUid (getInventory inp i)) (nth i correctUid noUid));
    destruct (same_uid (thisUid (getInventory inp i)) resetUid);
    cbn [negb]; exec;
    destruct (same_uid (thisUid (getInventory inp i)) (nth i lastUid0 noUid));
    cbn [negb]; eexists; reflexivity.
  - exec. destruct (same_uid (nth i lastUid0 noUid) noUid);
    cbn [negb]; eexists; reflexivity.
Qed.

Lemma reset_is_not_correct (inp : Inputs) (i : nat) :
  (i < numReaders)%nat -> reads_reset inp i = true -> reads_correct inp i = false.
Proof.
  unfold reads_reset, reads_correct. intros Hi H.
  apply andb_true_iff in H as [Hok H]. rewrite Hok. cbn [andb].
  apply same_uid_iff in H. rewrite H.
  destruct i as [|[|i]]; [reflexivity | reflexivity | unfold numReaders in Hi; lia].
Qed.

(** The whole loop, by cases on what the two readers returned. *)
Lemma readers_Powered_eq (inp : Inputs) (st : State) :
  exists lu,
    for_ numReaders (read_Powered inp) st =
    (if reads_reset inp 1 then onReset else skip)
      ((if reads_reset inp 0 then onReset else skip)
         (mkState (puzzleState st) (solvedMillis st) (currentMillis st) lu
                  (if reads_correct inp 0 && reads_correct inp 1
                   then beakersCorrect st else false)
                  (alchemyPower st) (doorClosed st) (lights st) (board st))).
Proof.
  rewrite for_readers.
  destruct (read_Powered_eq inp 0 st) as [lu0 E0]. rewrite E0. clear E0.
  match goal with |- context [read_Powered inp 1 ?x] =>
    destruct (read_Powered_eq inp 1 x) as [lu1 E1]; rewrite E1; clear E1 end.
  exists lu1.
  destruct (reads_reset inp 0), (reads_correct inp 0), (reads_correct inp 1);
    cbn [andb]; rewrite ?onReset_eq; unfold skip;
    cbn [puzzleState solvedMillis currentMillis lastUid beakersCorrect
         alchemyPower doorClosed lights board]; reflexivity.
Qed.

(** ** Token classification *)

Lemma Uid_eqb_same (a b : Uid) : Uid_eqb a b = same_uid a b.
Proof.
  unfold Uid_eqb. destruct (Uid_eq_dec a b) as [E|E].
  - symmetry. now apply same_uid_iff.
  - symmetry. now apply same_uid_neq.
Qed.

Lemma classify_polled (inp : Inputs) :
  classify_spec (polled inp) =
  if reads_reset inp 0 || reads_reset inp 1 then ResetRequested
  else if reads_correct inp 0 && reads_correct inp 1 then AllCorrect
  else Incorrect.
Proof.
  unfold classify_spec, polled, poll, reads_reset, reads_correct, ok_read.
  cbn [map List.seq numReaders existsb every_correct correctUid nth].
  destruct (rc (getInventory inp 0) =? ISO15693_EC_OK),
           (rc (getInventory inp 1) =? ISO15693_EC_OK);
    cbn [existsb every_correct andb orb]; rewrite ?Uid_eqb_same;
    repeat match goal with
           | |- context [same_uid ?a ?b] => destruct (same_uid a b)
           end; reflexivity.
Qed.

Ltac projections :=
  cbn [puzzleState solvedMillis currentMillis lastUid beakersCorrect alchemyPower
       doorClosed lights board clock out_beakerDoor out_crystalDoor pinlog
       set_beakersCorrect set_alchemyPower set_doorClosed skip].

Lemma reset_ran_onReset (st0 st : State) :
  pinlog (board st) = pinlog (board st0) -> reset_ran st0 (onReset st).
Proof.
  intros H. rewrite onReset_eq. unfold reset_ran. projections.
  repeat split; try reflexivity.
  eexists [_; _; _]. split; [discriminate|]. cbn [app]. now rewrite H.
Qed.

Lemma reset_ran_again (st0 st : State) : reset_ran st0 st -> reset_ran st0 (onReset st).
Proof.
  intros (_ & _ & _ & new & Hn & E). rewrite onReset_eq. unfold reset_ran. projections.
  repeat split; try reflexivity.
  eexists (_ :: _ :: _ :: new). split; [discriminate|]. cbn [app]. now rewrite E.
Qed.

(** C4: the reader loop of the [Powered] case computes the classification of
    the specification: [onReset] runs exactly when some reader read the reset
    identifier, whatever the other reader returned; otherwise [beakersCorrect]
    ends true exactly when every reader read its own correct identifier, an
    absent (failed) or mismatched reading leaving it false.  In particular
    [correct0, absent] is [Incorrect] and [reset, anything] is
    [ResetRequested]. *)
Theorem token_classification :
  (forall (inp : Inputs) (st : State),
     let st' := (set_beakersCorrect true ;; for_ numReaders (read_Powered inp)) st in
     match classify_spec (polled inp) with
     | ResetRequested => beakersCorrect st' = false /\ reset_ran st st'
     | AllCorrect => beakersCorrect st' = true /\ no_reset_ran st st'
     | Incorrect => beakersCorrect st' = false /\ no_reset_ran st st'
     end)
  /\ classify_spec [Some (nth 0 correctUid noUid); None] = Incorrect
  /\ (forall r, classify_spec [Some resetUid; r] = ResetRequested).
Proof.
  split; [|split; [reflexivity | intros r; reflexivity]].
  intros inp st st'. subst st'. rewrite seq_app.
  destruct (readers_Powered_eq inp (set_beakersCorrect true st)) as [lu E].
  rewrite E. clear E. rewrite classify_polled.
  pose proof (reset_is_not_correct inp 0) as N0.
  pose proof (reset_is_not_correct inp 1) as N1.
  unfold numReaders in N0, N1.
  destruct (reads_reset inp 0) eqn:R0; [rewrite N0 by (lia || reflexivity)|];
    (destruct (reads_reset inp 1) eqn:R1; [rewrite N1 by (lia || reflexivity)|]);
    cbn [orb andb]; rewrite ?andb_false_r.
  - split; [rewrite !onReset_eq; reflexivity|].
    apply reset_ran_again, reset_ran_onReset. reflexivity.
  - split; [rewrite !onReset_eq; reflexivity|].
    unfold skip. apply reset_ran_onReset. reflexivity.
  - split; [rewrite !onReset_eq; reflexivity|].
    unfold skip. apply reset_ran_onReset. reflexivity.
  - unfold skip.
    destruct (reads_correct inp 0), (reads_correct inp 1); cbn [andb];
      (split; [reflexivity | repeat split]).
Qed.

(** ** The [Powered] case: the solve edge *)

Lemma ifelse_true (c : State -> bool) (a b : stmt) (st : State) :
  c st = true -> ifelse c a b st = a st.
Proof. unfold ifelse. now intros ->. Qed.

Lemma ifelse_false (c : State -> bool) (a b : stmt) (st : State) :
  c st = false -> ifelse c a b st = b st.
Proof. unfold ifelse. now intros ->. Qed.

Lemma when_true (c : State -> bool) (a : stmt) (st : State) :
  c st = true -> when c a st = a st.
Proof. apply ifelse_true. Qed.

Lemma when_false (c : State -> bool) (a : stmt) (st : State) :
  c st = false -> when c a st = st.
Proof. apply ifelse_false. Qed.

(** Resolve the innermost conditional, the one applied to a state. *)
Ltac take_else :=
  match goal with
  | |- context [ifelse ?c ?a ?b ?st] => rewrite (ifelse_false c a b st) by reflexivity
  end.
Ltac take_then :=
  match goal with
  | |- context [ifelse ?c ?a ?b ?st] => rewrite (ifelse_true c a b st) by reflexivity
  end.
Ltac take_when :=
  match goal with
  | |- context [when ?c ?a ?st] => rewrite (when_true c a st) by reflexivity
  end.
Ltac skip_when tac :=
  match goal with
  | |- context [when ?c ?a ?st] => rewrite (when_false c a st) by tac
  end.

Lemma reads_correct_tag (inp : Inputs) (i : nat) :
  (i < numReaders)%nat ->
  getInventory inp i = tag (nth i correctUid noUid) ->
  reads_correct inp i = true /\ reads_reset inp i = false.
Proof.
  unfold reads_correct, reads_reset, ok_read. intros Hi ->.
  destruct i as [|[|i]]; [split; reflexivity | split; reflexivity
                         | unfold numReaders in Hi; lia].
Qed.

(** With power asserted, the door closed and both correct tags read, the
    [Powered] case is: 50 ms, then [onSolve]. *)
Lemma case_Powered_solves (inp : Inputs) (st : State) :
  alchemyPower st = true -> doorClosed st = true ->
  (forall i, (i < numReaders)%nat ->
             getInventory inp i = tag (nth i correctUid noUid)) ->
  exists lu,
    case_Powered inp st =
    onSolve (mkState (puzzleState st) (solvedMillis st) (currentMillis st) lu
                     true true true (lights st)
                     (mkBoard (clock (board st) + 50) (out_beakerDoor (board st))
                              (out_crystalDoor (board st)) (pinlog (board st)))).
Proof.
  intros Hp Hd Hr.
  destruct (reads_correct_tag inp 0) as [C0 R0]; [unfold numReaders; lia | apply Hr; unfold numReaders; lia |].
  destruct (reads_correct_tag inp 1) as [C1 R1]; [unfold numReaders; lia | apply Hr; unfold numReaders; lia |].
  unfold case_Powered. rewrite !seq_app.
  destruct (readers_Powered_eq inp (set_beakersCorrect true st)) as [lu E].
  rewrite E, C0, C1, R0, R1. clear E. exists lu.
  unfold skip. projections. cbn [andb]. rewrite Hp, Hd.
  take_else. take_else. take_when.
  skip_when ltac:(rewrite onSolve_eq; reflexivity).
  reflexivity.
Qed.

(** C3 (as amended): from [Powered], a tick in which both readers return
    their correct identifiers while the door sensor and the power sensor are
    asserted (and no remote command arrives) ends in [Solved]; the recorded
    solve timestamp is the clock read at the end of the blocking solve
    sequence, 5210 ms after the tick began (50 ms, the 5000 ms wait, 160 ms
    of delays), and the tick ends 50 ms later. *)
Theorem solve_edge (inp : Inputs) (st : State) :
  puzzleState st = Powered ->
  alchemyPower_of inp = true -> doorClosed_of inp = true ->
  (forall i, (i < numReaders)%nat ->
             getInventory inp i = tag (nth i correctUid noUid)) ->
  no_command inp = true ->
  puzzleState (loop inp st) = Solved
  /\ solvedMillis (loop inp st) = u32 (clock (board st) + 5210)
  /\ clock (board (loop inp st)) = clock (board st) + 5260.
Proof.
  intros HP Hpow Hdoor Hr Hcmd.
  rewrite loop_unfold, HP. cbn [handler].
  rewrite (core_puzzleState _ _ (loop_tail_core _ _ Hcmd)).
  rewrite (core_solvedMillis _ _ (loop_tail_core _ _ Hcmd)).
  rewrite (core_board _ _ (loop_tail_core _ _ Hcmd)).
  destruct (case_Powered_solves inp (sample inp st)) as [lu E];
    [unfold sample; rewrite seq_app; exact Hpow
    | unfold sample; rewrite seq_app; exact Hdoor
    | exact Hr |].
  rewrite E, onSolve_eq. unfold sample. rewrite seq_app.
  cbn [puzzleState solvedMillis board clock elapse set_board
       set_alchemyPower set_doorClosed].
  repeat split; try lia. f_equal. lia.
Qed.

(** C5 (as amended): from [Solved], a tick in which no reader buffer holds
    the reset identifier and no remote command arrives moves to [GameOver]
    exactly when the time elapsed since the solve timestamp (32-bit
    arithmetic, read at the start of the tick) is strictly greater than
    1,800,000 ms; at 1,800,000 ms or less the state stays [Solved]. *)
Theorem solved_dwell (inp : Inputs) (st : State) :
  puzzleState st = Solved -> reset_seen inp = false -> no_command inp = true ->
  puzzleState (loop inp st)
  = if u32 (millis st - solvedMillis st) >? 1800000 then GameOver else Solved.
Proof.
  intros HS Hr Hcmd. rewrite loop_unfold, HS. cbn [handler].
  rewrite (core_puzzleState _ _ (loop_tail_core _ _ Hcmd)).
  cbn [puzzleState elapse set_board].
  rewrite (case_Solved_state inp _ Hr). unfold sample. rewrite seq_app.
  unfold millis. cbn [puzzleState solvedMillis board set_alchemyPower set_doorClosed].
  now rewrite HS.
Qed.

(** C6: in every execution of [loop()], from any state and for any inputs
    (remote commands included), each write of [HIGH] to the crystal lock is
    followed, before anything else is written to a pin and before the tick
    ends, by a write of [LOW] exactly 10 ms later; so at the start of every
    tick of every run the crystal lock is not energised. *)
Theorem crystal_lock_is_pulsed :
  (forall (inp : Inputs) (st : State),
     exists new,
       pinlog (board (loop inp st)) = new ++ pinlog (board st) /\ pulsed new = true)
  /\ (forall ins : list Inputs, crystal_energised (run ins booted) = false).
Proof.
  split.
  - intros inp st. exact (proj1 (pulsing_loop inp st)).
  - intros ins. unfold crystal_energised.
    rewrite (crystal_low_run ins booted); reflexivity.
Qed.

(** ** Remote commands *)

Lemma strcmp_command (name : string) (m : list byte) :
  upto_nul (list_byte_of_string name) = list_byte_of_string name ->
  (strcmp (map tolower m ++ [x00]) (cstr name) =? 0) = is_command name m.
Proof.
  intros Hn. unfold is_command, bytes_eqb, cstr.
  destruct (list_eq_dec _ _ _) as [E|E].
  - apply Z.eqb_eq. now apply strcmp_terminated.
  - apply Z.eqb_neq. intros H. apply E. now apply strcmp_terminated in H.
Qed.

Lemma callback_eq (m : list byte) (st : State) :
  callback m st
  = if is_command "solve" m then onSolve st
    else if is_command "reset" m then onReset st
    else st.
Proof.
  unfold callback.
  rewrite (strcmp_command "solve") by reflexivity.
  rewrite (strcmp_command "reset") by reflexivity.
  destruct (is_command "solve" m); [reflexivity|].
  destruct (is_command "reset" m); reflexivity.
Qed.

(** C9 (as amended): [callback] lower-cases the payload and compares it as
    a C string, that is, up to its first NUL byte: if that spells "solve" it
    runs [onSolve] (whatever the state and the sensors; the state is then
    [Solved]); if it spells "reset" it runs [onReset], the very routine the
    reader loops run on the reset tag (the state is then [Unpowered]); any
    other payload leaves the state as it was. *)
Theorem remote_command (m : list byte) (st : State) :
  callback m st
  = (if is_command "solve" m then onSolve st
     else if is_command "reset" m then onReset st
     else st)
  /\ puzzleState (onSolve st) = Solved
  /\ puzzleState (onReset st) = Unpowered
  /\ (forall p d r, read_for_reset (sensors p d (tag resetUid) r) 0 st = onReset st).
Proof.
  split; [|split; [|split]].
  - unfold callback.
    rewrite (strcmp_command "solve") by reflexivity.
    rewrite (strcmp_command "reset") by reflexivity.
    destruct (is_command "solve" m); [reflexivity|].
    destruct (is_command "reset" m); reflexivity.
  - now rewrite onSolve_eq.
  - now rewrite onReset_eq.
  - intros p d r. unfold read_for_reset. now rewrite when_true.
Qed.

(** ** The beaker lock in [Unpowered] and [GameOver] *)

Lemma beaker_untouched_refl (st : State) : beaker_untouched st st.
Proof. split; [reflexivity | exists []; split; reflexivity]. Qed.

Lemma beaker_untouched_trans (a b c : State) :
  beaker_untouched a b -> beaker_untouched b c -> beaker_untouched a c.
Proof.
  intros [L1 (n1 & E1 & F1)] [L2 (n2 & E2 & F2)]. split; [congruence|].
  exists (n2 ++ n1). split.
  - rewrite E2, E1. apply app_assoc.
  - rewrite forallb_app, F1, F2. reflexivity.
Qed.

Lemma beaker_untouched_quiet (s : stmt) : quiet s -> respects beaker_untouched s.
Proof.
  intros H st. destruct (H st) as (E1 & E2 & _). split; [exact E2|].
  exists []. now rewrite E1.
Qed.

Ltac frame_steps :=
  repeat lazymatch goal with
    | |- respects _ (seq _ _) =>
        apply (respects_seq beaker_untouched beaker_untouched_trans)
    | |- respects _ (when _ _) =>
        apply (respects_when beaker_untouched beaker_untouched_refl)
    | |- respects _ (ifelse _ _ _) => apply (respects_ifelse beaker_untouched)
    | |- respects _ skip => apply (respects_skip beaker_untouched beaker_untouched_refl)
    | |- _ => solve [ apply beaker_untouched_quiet; auto 1 with quiet nocore ]
    end.

Lemma frame_lights_off : respects beaker_untouched lights_off_if_active.
Proof. unfold lights_off_if_active. frame_steps. Qed.

Lemma frame_sample (inp : Inputs) : respects beaker_untouched (sample inp).
Proof. unfold sample. frame_steps. Qed.

Lemma frame_Unpowered : respects beaker_untouched case_Unpowered.
Proof. unfold case_Unpowered. frame_steps. apply frame_lights_off. Qed.

Lemma frame_GameOver (inp : Inputs) :
  reset_seen inp = false -> respects beaker_untouched (case_GameOver inp).
Proof.
  intros Hr st. unfold case_GameOver. rewrite !seq_app.
  rewrite readers_no_reset by exact Hr.
  eapply beaker_untouched_trans; [apply frame_lights_off|].
  apply beaker_untouched_quiet. auto with quiet.
Qed.

Lemma frame_onSolve : respects beaker_untouched onSolve.
Proof.
  intros st. rewrite onSolve_eq. split; [reflexivity|].
  eexists [_; _]. split; reflexivity.
Qed.

(** A message that is not "reset" leaves the beaker lock alone: "solve" runs
    [onSolve], which writes the crystal lock only. *)
Lemma frame_callback (m : list byte) :
  is_command "reset" m = false -> respects beaker_untouched (callback m).
Proof.
  intros Hm st. rewrite callback_eq, Hm.
  destruct (is_command "solve" m); [apply frame_onSolve | apply beaker_untouched_refl].
Qed.

Lemma frame_commands (ms : list (list byte)) :
  forallb (fun m => negb (is_command "reset" m)) ms = true ->
  forall st, beaker_untouched st (fold_left (fun s m => callback m s) ms st).
Proof.
  induction ms as [|m ms IH]; intros H st; [apply beaker_untouched_refl|].
  cbn [forallb] in H. apply andb_true_iff in H as [Hm H].
  apply negb_true_iff in Hm. cbn [fold_left].
  eapply beaker_untouched_trans; [apply (frame_callback m Hm) | apply IH, H].
Qed.

Lemma frame_tail (inp : Inputs) :
  no_reset_command inp = true -> respects beaker_untouched (loop_tail inp).
Proof.
  intros Hc. unfold loop_tail.
  apply (respects_seq beaker_untouched beaker_untouched_trans); [frame_steps|].
  apply (respects_seq beaker_untouched beaker_untouched_trans); [|frame_steps].
  intros st. exact (frame_commands (mqtt inp) Hc st).
Qed.

Lemma frame_loop (inp : Inputs) (st : State) :
  frame_tick inp st = true -> beaker_untouched st (loop inp st).
Proof.
  unfold frame_tick. intros H. apply andb_true_iff in H as [Hc H].
  rewrite loop_unfold.
  eapply beaker_untouched_trans; [apply (frame_sample inp)|].
  eapply beaker_untouched_trans; [|apply (frame_tail inp Hc)].
  destruct (puzzleState st); try discriminate; cbn [handler].
  - apply frame_Unpowered.
  - apply frame_GameOver. now apply negb_true_iff.
Qed.

Lemma frame_Solved (inp : Inputs) (st : State) :
  (u32 (millis st - solvedMillis st) >? 1800000) = false ->
  reset_seen inp = false ->
  beaker_untouched st (case_Solved inp st).
Proof.
  intros He Hr. unfold case_Solved. rewrite !seq_app.
  rewrite readers_no_reset by exact Hr.
  rewrite ifelse_false by exact He.
  match goal with
  | |- beaker_untouched _ (?blk ?x) =>
      assert (F : respects beaker_untouched blk) by frame_steps;
      eapply beaker_untouched_trans; [|apply F]
  end.
  split; [reflexivity | exists []; split; reflexivity].
Qed.

(** The decision block of the [Powered] case, when the engage branch is not
    taken. *)
Lemma frame_Powered_decision (a b : stmt) (st : State) :
  respects beaker_untouched a -> respects beaker_untouched b ->
  (beakersCorrect st && alchemyPower st && negb (doorClosed st)) = false ->
  beaker_untouched st
    (ifelse (fun st => negb (beakersCorrect st)) a
       (ifelse (fun st => negb (doorClosed st))
          (when (fun st => alchemyPower st && beakersCorrect st)
             (digitalWrite beakerDoor HIGH) ;; b)
          (when (fun st => alchemyPower st && beakersCorrect st && doorClosed st)
             onSolve)) st).
Proof.
  intros Ha Hb H.
  destruct (beakersCorrect st) eqn:Hbc.
  - rewrite ifelse_false by (now rewrite Hbc).
    destruct (doorClosed st) eqn:Hdc.
    + rewrite ifelse_false by (now rewrite Hdc).
      apply (respects_when beaker_untouched beaker_untouched_refl), frame_onSolve.
    + rewrite ifelse_true by (now rewrite Hdc).
      rewrite seq_app.
      rewrite when_false
        by (cbn [andb negb] in H; destruct (alchemyPower st); [discriminate|reflexivity]).
      apply Hb.
  - rewrite ifelse_true by (now rewrite Hbc). apply Ha.
Qed.

Lemma frame_Powered (inp : Inputs) (st : State) :
  reads_reset inp 0 = false -> reads_reset inp 1 = false ->
  (alchemyPower st && negb (doorClosed st)
   && (reads_correct inp 0 && reads_correct inp 1)) = false ->
  beaker_untouched st (case_Powered inp st).
Proof.
  intros R0 R1 H. unfold case_Powered. do 4 rewrite seq_app.
  eapply beaker_untouched_trans;
    [|match goal with |- beaker_untouched _ (when ?c ?pl _) =>
        assert (F : respects beaker_untouched (when c pl)) by frame_steps; apply F end].
  destruct (readers_Powered_eq inp (set_beakersCorrect true st)) as [lu E].
  rewrite E, R0, R1. clear E. unfold skip. projections.
  match goal with
  | |- beaker_untouched _ (ifelse _ ?a (ifelse _ (_ ;; ?b) _) ?y) =>
      eapply beaker_untouched_trans; [|apply (frame_Powered_decision a b y)]
  end.
  - split; [reflexivity | exists []; split; reflexivity].
  - frame_steps.
  - frame_steps.
  - cbn [beakersCorrect alchemyPower doorClosed delay elapse set_board].
    destruct (reads_correct inp 0 && reads_correct inp 1);
      [| reflexivity].
    rewrite andb_true_r in H. cbn [andb]. exact H.
Qed.

Lemma beaker_written_only_by (inp : Inputs) (st : State) :
  may_write_beaker inp st = false -> beaker_untouched st (loop inp st).
Proof.
  unfold may_write_beaker. intros H. apply orb_false_iff in H as [Hc H].
  apply negb_false_iff in Hc. rewrite loop_unfold.
  eapply beaker_untouched_trans; [apply (frame_sample inp)|].
  eapply beaker_untouched_trans; [|apply (frame_tail inp Hc)].
  destruct (puzzleState st); try discriminate; cbn [handler].
  - apply frame_Unpowered.
  - apply orb_false_iff in H as [H H2]. apply orb_false_iff in H as [R0 R1].
    apply frame_Powered; assumption.
  - apply orb_false_iff in H as [He Hr]. apply frame_Solved; assumption.
  - now apply frame_GameOver.
Qed.

(** C10: the [Unpowered] and [GameOver] handlers never write the
    beaker-lock output.  A tick leaves the beaker lock at its level, and logs
    no write to its pin, unless it is one of: the [Initializing] case, the
    engage branch of [Powered], [onReset] (reset tag, reset identifier in a
    reader buffer, or remote "reset"), [gameOver] ([Solved] past the dwell);
    every other remote message, "solve" included, leaves it alone.  So over
    any run of ticks that are all spent in [Unpowered] or in [GameOver], and
    in none of which [onReset] runs, the level at the end is the level at
    the start, whatever messages arrive. *)
Theorem beaker_lock_frame :
  (forall (inp : Inputs) (st : State),
     may_write_beaker inp st = false -> beaker_untouched st (loop inp st))
  /\ (forall (ins : list Inputs) (st : State),
        frame_run ins st = true -> beaker_untouched st (run ins st)).
Proof.
  split; [exact beaker_written_only_by|].
  intros ins. induction ins as [|inp ins IH]; intros st H.
  - apply beaker_untouched_refl.
  - cbn [frame_run] in H. apply andb_true_iff in H as [H1 H2].
    change (run (inp :: ins) st) with (run ins (loop inp st)).
    eapply beaker_untouched_trans; [apply (frame_loop inp st H1) | apply IH, H2].
Qed.

(** ** Where the code leaves the specification, from any state *)

Lemma read_for_reset_state (inp : Inputs) (i : nat) (st : State) :
  puzzleState st = Unpowered -> puzzleState (read_for_reset inp i st) = Unpowered.
Proof.
  intros H. unfold read_for_reset, when, ifelse, skip.
  destruct (same_uid _ _); [now rewrite onReset_eq | exact H].
Qed.

(** The [Solved] and [GameOver] loops compare the buffer with [resetUid]
    whatever the call returned: a buffer of reader 0 that holds the reset
    identifier resets. *)
Lemma buffer_reset_in_Solved_or_GameOver (inp : Inputs) (st : State) :
  puzzleState st = Solved \/ puzzleState st = GameOver ->
  same_uid (thisUid (getInventory inp 0)) resetUid = true ->
  no_command inp = true ->
  puzzleState (loop inp st) = Unpowered.
Proof.
  intros HS H0 Hcmd. rewrite loop_unfold.
  rewrite (core_puzzleState _ _ (loop_tail_core _ _ Hcmd)).
  cbn [puzzleState elapse set_board].
  destruct HS as [-> | ->]; cbn [handler].
  - unfold case_Solved. rewrite !seq_app, for_readers.
    apply read_for_reset_state. unfold read_for_reset at 1.
    rewrite when_true by exact H0. now rewrite onReset_eq.
  - unfold case_GameOver. rewrite !seq_app, for_readers.
    cbn [puzzleState elapse set_board delay].
    apply read_for_reset_state. unfold read_for_reset at 1.
    rewrite when_true by exact H0. now rewrite onReset_eq.
Qed.

Lemma reset_then_flash (inp : Inputs) (st : State) :
  puzzleState st = Powered ->
  alchemyPower_of inp = true ->
  reads_reset inp 0 || reads_reset inp 1 = true ->
  no_command inp = true ->
  puzzleState (loop inp st) = Unpowered
  /\ out_beakerDoor (board (loop inp st)) = LOW
  /\ ActivePattern (LS1_ (loop inp st)) = flash.
Proof.
  intros HP Hpow Hr Hcmd. rewrite loop_unfold, HP. cbn [handler].
  assert (E : exists l1 l2 l3 l4 lu sm cm dc b,
             case_Powered inp (sample inp st)
             = mkState Unpowered sm cm lu false true dc
                 (mkStrips (Flash red 80 Strip1Start Strip1Length forward l1)
                           l2 l3 l4)
                 b /\ out_beakerDoor b = LOW).
  { unfold case_Powered. rewrite !seq_app.
    destruct (readers_Powered_eq inp (set_beakersCorrect true (sample inp st))) as [lu E].
    rewrite E. clear E.
    pose proof (reset_is_not_correct inp 0) as N0.
    pose proof (reset_is_not_correct inp 1) as N1.
    unfold numReaders in N0, N1.
    unfold sample. rewrite seq_app, Hpow.
    destruct (reads_reset inp 0) eqn:R0; [rewrite N0 by (lia || reflexivity)|];
    (destruct (reads_reset inp 1) eqn:R1; [rewrite N1 by (lia || reflexivity)|]);
    try discriminate; rewrite ?andb_false_r; cbn [andb]; unfold skip;
    rewrite ?onReset_eq; projections.
    all: take_then.
    all: rewrite !seq_app.
    all: take_when.
    all: skip_when ltac:(reflexivity).
    all: do 9 eexists; split; [reflexivity | reflexivity]. }
  destruct E as (l1 & l2 & l3 & l4 & lu & sm & cm & dc & b & E & Hb).
  rewrite E. clear E.
  unfold loop_tail. rewrite !seq_app, client_loop_idle by exact Hcmd.
  repeat split; try exact Hb.
Qed.


Lemma dead_frame_refl (st : State) : dead_frame st st.
Proof. intros H. split; [exact H | reflexivity]. Qed.

Lemma dead_frame_trans (a b c : State) :
  dead_frame a b -> dead_frame b c -> dead_frame a c.
Proof.
  intros H1 H2 Ha. destruct (H1 Ha) as [Hb E1]. destruct (H2 Hb) as [Hc E2].
  split; [exact Hc | congruence].
Qed.

Lemma dead_frame_guarded (c : State -> bool) (a : stmt) :
  respects dead_frame (when (fun st => alchemyPower st && c st) a).
Proof.
  intros st H. unfold when, ifelse, skip. rewrite H. cbn [andb].
  split; [exact H | reflexivity].
Qed.

Lemma dead_frame_guarded2 (c d : State -> bool) (a : stmt) :
  respects dead_frame (when (fun st => alchemyPower st && c st && d st) a).
Proof.
  intros st H. unfold when, ifelse, skip. rewrite H. cbn [andb].
  split; [exact H | reflexivity].
Qed.

Lemma dead_frame_readers (inp : Inputs) :
  reads_reset inp 0 = false -> reads_reset inp 1 = false ->
  respects dead_frame (for_ numReaders (read_Powered inp)).
Proof.
  intros R0 R1 st H. destruct (readers_Powered_eq inp st) as [lu E].
  rewrite E, R0, R1. unfold skip. split; [exact H | reflexivity].
Qed.

Ltac dead_steps :=
  repeat lazymatch goal with
    | |- respects _ (seq _ _) => apply (respects_seq dead_frame dead_frame_trans)
    | |- respects _ (for_ _ _) => apply dead_frame_readers; assumption
    | |- respects _ (when (fun st => alchemyPower st && @?c st && @?d st) _) =>
        apply (dead_frame_guarded2 c d)
    | |- respects _ (when (fun st => alchemyPower st && @?c st) _) =>
        apply (dead_frame_guarded c)
    | |- respects _ (when _ (on_LS1 _)) => apply (respects_when dead_frame dead_frame_refl)
    | |- respects _ (ifelse _ _ _) => apply (respects_ifelse dead_frame)
    | |- respects _ (set_beakersCorrect _) => intros ? ?; split; [assumption | reflexivity]
    | |- respects _ (on_LS1 _) => intros ? ?; split; [assumption | reflexivity]
    | |- respects _ (delay _) => intros ? ?; split; [assumption | reflexivity]
    | |- respects _ showCurrentStatus => intros ? ?; split; [assumption | reflexivity]
    end.

Lemma power_loss_in_Powered (inp : Inputs) (st : State) :
  puzzleState st = Powered ->
  alchemyPower_of inp = false ->
  reads_reset inp 0 = false -> reads_reset inp 1 = false ->
  no_command inp = true ->
  puzzleState (loop inp st) = Unpowered
  /\ out_beakerDoor (board (loop inp st)) = out_beakerDoor (board st).
Proof.
  intros HP Hpow R0 R1 Hcmd. rewrite loop_unfold, HP. cbn [handler].
  rewrite (core_puzzleState _ _ (loop_tail_core _ _ Hcmd)).
  rewrite (core_board _ _ (loop_tail_core _ _ Hcmd)).
  cbn [puzzleState board elapse set_board out_beakerDoor].
  assert (Hx : alchemyPower (sample inp st) = false)
    by (unfold sample; rewrite seq_app; exact Hpow).
  assert (Hb : out_beakerDoor (board (sample inp st)) = out_beakerDoor (board st))
    by reflexivity.
  rewrite <- Hb. clear Hb. generalize dependent (sample inp st). intros x Hx.
  unfold case_Powered. do 4 rewrite seq_app.
  match goal with
  | |- context [when ?c ?pl (?d (?cc (?b (?a x))))] =>
      assert (F : respects dead_frame (a ;; b ;; cc ;; d)) by dead_steps;
      destruct (F x Hx) as [Hy Ey]; clear F;
      change ((a ;; b ;; cc ;; d) x) with (d (cc (b (a x)))) in Hy, Ey;
      generalize dependent (d (cc (b (a x))))
  end.
  intros y Hy Ey. rewrite when_true by (now rewrite Hy).
  rewrite <- Ey. split; reflexivity.
Qed.

Lemma Update_none (s : NeoPatterns.t) : ActivePattern s = none -> Update s = s.
Proof. intros H. unfold Update. now rewrite H. Qed.

Lemma active_false (s : NeoPatterns.t) : active s = false -> ActivePattern s = none.
Proof. unfold active. destruct (ActivePattern s); cbn; congruence. Qed.

Lemma patterns_stopped_none (st : State) :
  patterns_stopped st = true ->
  active (LS1_ st) = false /\ active (LS2_ st) = false
  /\ active (LS3_ st) = false /\ active (LS4_ st) = false.
Proof.
  unfold patterns_stopped. intros H.
  repeat (apply andb_true_iff in H; destruct H as [H ?]).
  repeat split; now apply negb_true_iff.
Qed.

Lemma loop_tail_lights (inp : Inputs) (st : State) :
  no_command inp = true -> patterns_stopped st = true ->
  lights (loop_tail inp st) = lights st.
Proof.
  intros Hc Hp. apply patterns_stopped_none in Hp as (H1 & H2 & H3 & H4).
  apply active_false in H1, H2, H3, H4.
  unfold loop_tail. rewrite !seq_app, client_loop_idle by exact Hc.
  destruct_state st. unfold LS1_, LS2_, LS3_, LS4_ in *. cbn [lights LS1 LS2 LS3 LS4] in *.
  exec. now rewrite !Update_none.
Qed.

Lemma lights_off_stopped (st : State) :
  patterns_stopped st = true -> lights_off_if_active st = st.
Proof.
  intros Hp. apply patterns_stopped_none in Hp as (H1 & H2 & H3 & H4).
  unfold lights_off_if_active. rewrite !seq_app.
  rewrite (when_false _ _ st) by exact H1.
  rewrite (when_false _ _ st) by exact H2.
  rewrite (when_false _ _ st) by exact H3.
  now rewrite (when_false _ _ st) by exact H4.
Qed.

(** With no pattern running, the tick that expires [Solved] and every tick
    in [GameOver] leave the four strips exactly as they were. *)
Lemma strips_kept_at_game_over (inp : Inputs) (st : State) :
  patterns_stopped st = true ->
  reset_seen inp = false -> no_command inp = true ->
  (puzzleState st = Solved /\ (u32 (millis st - solvedMillis st) >? 1800000) = true)
  \/ puzzleState st = GameOver ->
  puzzleState (loop inp st) = GameOver /\ lights (loop inp st) = lights st.
Proof.
  intros Hp Hr Hc HS. rewrite loop_unfold.
  assert (E : puzzleState (handler inp (puzzleState st) (sample inp st)) = GameOver
              /\ lights (handler inp (puzzleState st) (sample inp st)) = lights st).
  { destruct HS as [[HS He] | HS]; rewrite HS; cbn [handler].
    - unfold case_Solved. rewrite !seq_app. rewrite readers_no_reset by exact Hr.
      rewrite ifelse_true by exact He. rewrite gameOver_eq. split; reflexivity.
    - unfold case_GameOver. rewrite !seq_app. rewrite readers_no_reset by exact Hr.
      rewrite lights_off_stopped by exact Hp. split; [exact HS | reflexivity]. }
  destruct E as [E1 E2]. split.
  - now rewrite (core_puzzleState _ _ (loop_tail_core _ _ Hc)).
  - rewrite loop_tail_lights; [exact E2 | exact Hc |].
    unfold patterns_stopped, LS1_, LS2_, LS3_, LS4_ in *. now rewrite E2.
Qed.

(** * Scenarios *)

Lemma st_powered_run : st_powered = run to_powered booted.
Proof. vm_compute. reflexivity. Qed.

Lemma st_locked_run : st_locked = run to_locked booted.
Proof. vm_compute. reflexivity. Qed.

Lemma st_solved_run : st_solved = run to_solved booted.
Proof. vm_compute. reflexivity. Qed.

Lemma st_dwell_run : st_dwell = run to_dwell booted.
Proof. vm_compute. reflexivity. Qed.

Lemma st_expired_run : st_expired = loop tick_idle (loop tick_idle st_dwell).
Proof. vm_compute. reflexivity. Qed.

Lemma reachable_step (inp : Inputs) (st : State) :
  reachable st -> reachable (loop inp st).
Proof.
  intros [ins E]. exists (ins ++ [inp]). rewrite run_app, <- E. reflexivity.
Qed.

Lemma reachable_scenarios :
  reachable st_powered /\ reachable st_locked /\ reachable st_solved
  /\ reachable st_dwell /\ reachable st_expired.
Proof.
  assert (D : reachable st_dwell) by (exists to_dwell; apply st_dwell_run).
  repeat split.
  - exists to_powered. apply st_powered_run.
  - exists to_locked. apply st_locked_run.
  - exists to_solved. apply st_solved_run.
  - exact D.
  - rewrite st_expired_run. now do 2 apply reachable_step.
Qed.

(** ** Where the code leaves the specification *)

(** C1: the beaker lock is never held while [Unpowered] or [Initializing],
    and is released when power is lost in [Powered].  The code does not do
    this: from any [Powered] state, a tick in which the power sensor is
    de-asserted (no reset tag read, no remote command) takes the power-loss
    branch, which turns the strips off and sets [Unpowered] without writing
    the beaker lock, so the lock keeps its level; and in the reachable state
    [st_locked] that level is engaged: the run ends [Unpowered] with the
    beaker lock held. *)
Theorem power_loss_keeps_beaker_locked :
  (forall (inp : Inputs) (st : State),
     puzzleState st = Powered ->
     alchemyPower_of inp = false ->
     reads_reset inp 0 = false -> reads_reset inp 1 = false ->
     no_command inp = true ->
     puzzleState (loop inp st) = Unpowered
     /\ out_beakerDoor (board (loop inp st)) = out_beakerDoor (board st))
  /\ reachable st_locked
  /\ puzzleState st_locked = Powered /\ beaker_locked st_locked = true
  /\ alchemyPower_of tick_power_lost = false
  /\ reachable (loop tick_power_lost st_locked)
  /\ puzzleState (loop tick_power_lost st_locked) = Unpowered
  /\ beaker_locked (loop tick_power_lost st_locked) = true.
Proof.
  split; [exact power_loss_in_Powered|].
  assert (R : reachable st_locked) by apply reachable_scenarios.
  split; [exact R|]. split; [reflexivity|]. split; [reflexivity|].
  split; [reflexivity|]. split; [now apply reachable_step|].
  split; vm_compute; reflexivity.
Qed.

(** C2: once the reset tag is seen, nothing issued later in the same tick
    survives and the next tick finds all patterns stopped.  The code does not
    do this in [Powered]: after [onReset] the tick goes on, finds
    [beakersCorrect] false and starts the red flash on the beaker strip; from
    any [Powered] state, with power asserted, the tick that reads the reset
    tag ends in [Unpowered], lock released, with strip 1 flashing; so it does
    from the reachable state [st_powered]. *)
Theorem reset_tag_then_red_flash :
  (forall (inp : Inputs) (st : State),
     puzzleState st = Powered ->
     alchemyPower_of inp = true ->
     reads_reset inp 0 || reads_reset inp 1 = true ->
     no_command inp = true ->
     puzzleState (loop inp st) = Unpowered
     /\ out_beakerDoor (board (loop inp st)) = LOW
     /\ ActivePattern (LS1_ (loop inp st)) = flash)
  /\ reachable st_powered
  /\ puzzleState st_powered = Powered
  /\ reads_reset tick_reset_tag 0 = true
  /\ puzzleState (loop tick_reset_tag st_powered) = Unpowered
  /\ beaker_locked (loop tick_reset_tag st_powered) = false
  /\ ActivePattern (LS1_ (loop tick_reset_tag st_powered)) = flash
  /\ Color1 (LS1_ (loop tick_reset_tag st_powered)) = red
  /\ patterns_stopped (loop tick_reset_tag st_powered) = false.
Proof.
  split; [exact reset_then_flash|]. split; [apply reachable_scenarios|].
  vm_compute. repeat split.
Qed.

(** C8: when the dwell has elapsed the strips are extinguished and stay so
    in [GameOver].  The code does not do this: [gameOver] releases the beaker
    lock and sets the state but leaves the strips alone, and the [GameOver]
    case only turns off strips whose [ActivePattern] is not [none]; with no
    pattern running, as [onSolve] leaves the four strips, the expiring tick
    and every [GameOver] tick keep them as they were.  In the run through
    [st_dwell] they keep the solved colours. *)
Theorem game_over_leaves_strips_lit :
  (forall (inp : Inputs) (st : State),
     patterns_stopped st = true ->
     reset_seen inp = false -> no_command inp = true ->
     (puzzleState st = Solved /\ (u32 (millis st - solvedMillis st) >? 1800000) = true)
     \/ puzzleState st = GameOver ->
     puzzleState (loop inp st) = GameOver /\ lights (loop inp st) = lights st)
  /\ reachable st_dwell
  /\ puzzleState (loop tick_idle st_dwell) = Solved
  /\ beaker_locked (loop tick_idle st_dwell) = true
  /\ puzzleState st_expired = GameOver
  /\ beaker_locked st_expired = false
  /\ strips_dark st_expired = false
  /\ puzzleState (loop tick_idle st_expired) = GameOver
  /\ strips_dark (loop tick_idle st_expired) = false
  /\ pixels (LS1_ (loop tick_idle st_expired)) = repeat green Strip1Length
  /\ pixels (LS3_ (loop tick_idle st_expired)) = repeat purple Strip3Length.
Proof.
  split; [exact strips_kept_at_game_over|]. split; [apply reachable_scenarios|].
  vm_compute. repeat split.
Qed.

(** ** Counterexamples to the claims as stated *)

(** C3 as stated: the solve timestamp is not the time of the tick that saw
    the solving inputs: the tick starts at 10350 ms and records 15560 ms. *)
Lemma solve_timestamp_is_late :
  puzzleState st_locked = Powered
  /\ millis st_locked = 10350
  /\ puzzleState (loop tick_correct_closed st_locked) = Solved
  /\ solvedMillis (loop tick_correct_closed st_locked) = 15560.
Proof. vm_compute. repeat split. Qed.

(** C5 as stated: with exactly 1,800,000 ms elapsed the state stays
    [Solved]. *)
Lemma dwell_reached_not_expired :
  puzzleState st_dwell = Solved
  /\ u32 (millis st_dwell - solvedMillis st_dwell) = 1800000
  /\ reset_seen tick_idle = false
  /\ puzzleState (loop tick_idle st_dwell) = Solved.
Proof. vm_compute. repeat split. Qed.

(** C9 as stated: a payload other than "solve" that changes the state. *)
Lemma nul_payload_solves :
  bytes_eqb (map tolower nul_payload) (list_byte_of_string "solve") = false
  /\ puzzleState booted = Initializing
  /\ puzzleState (callback nul_payload booted) = Solved.
Proof. vm_compute. repeat split. Qed.

(** ** The theorems at concrete inputs *)

Lemma solve_edge_witness :
  puzzleState st_locked = Powered
  /\ puzzleState (loop tick_correct_closed st_locked) = Solved
  /\ solvedMillis (loop tick_correct_closed st_locked) = u32 (clock (board st_locked) + 5210)
  /\ clock (board (loop tick_correct_closed st_locked)) = clock (board st_locked) + 5260.
Proof.
  split; [reflexivity|].
  apply (solve_edge tick_correct_closed st_locked); try reflexivity.
  intros [|[|i]] Hi; [reflexivity | reflexivity | unfold numReaders in Hi; lia].
Defined.

Lemma solved_dwell_witness :
  puzzleState (loop tick_idle st_dwell)
  = if u32 (millis st_dwell - solvedMillis st_dwell) >? 1800000 then GameOver else Solved.
Proof. apply (solved_dwell tick_idle st_dwell); reflexivity. Defined.

Lemma beaker_lock_frame_witness :
  beaker_locked st_power_lost = true
  /\ beaker_untouched st_power_lost
       (run [tick_idle; tick_hello; tick_remote_solve] st_power_lost)
  /\ puzzleState (run [tick_idle; tick_hello] st_power_lost) = Unpowered.
Proof.
  split; [reflexivity|]. split; [|reflexivity].
  apply (proj2 beaker_lock_frame [tick_idle; tick_hello; tick_remote_solve]
               st_power_lost).
  vm_compute. reflexivity.
Defined.

(** * The rest of [loop()] *)

(** ** The blocks of the [Powered] case *)

Lemma power_loss_eq (st : State) :
  power_loss st =
  mkState Unpowered (solvedMillis st) (currentMillis st) (lastUid st)
          (beakersCorrect st) (alchemyPower st) (doorClosed st)
          (power_loss_lights (lights st))
          (mkBoard (clock (board st) + 200) (out_beakerDoor (board st))
                   (out_crystalDoor (board st)) (pinlog (board st))).
Proof.
  destruct_state st. unfold power_loss, power_loss_lights, show. exec.
  repeat (f_equal; try lia).
Qed.

Lemma flash_guard (c : Z) (st : State) :
  when (fun st => negb (pattern_eqb (ActivePattern (LS1_ st)) flash)
                  || negb (Color1 (LS1_ st) =? c))
       (on_LS1 (Flash c 80 Strip1Start Strip1Length forward)) st
  = on_LS1 (flash_unless c) st.
Proof.
  destruct_state st. unfold flash_unless. exec.
  destruct (negb _ || negb _); reflexivity.
Qed.

(** The [Powered] case when no reader returned the reset identifier: the
    reader loop and 50 ms, then the red flash and 2000 ms, or the engage
    branch, or [onSolve]; then the power-loss block when power is gone. *)
Lemma case_Powered_cases (inp : Inputs) (st : State) :
  reset_read inp = false ->
  exists lu,
    case_Powered inp st =
    when (fun s => negb (alchemyPower s)) power_loss
      (let y := mkState (puzzleState st) (solvedMillis st) (currentMillis st) lu
                        (both_correct inp) (alchemyPower st) (doorClosed st)
                        (lights st)
                        (mkBoard (clock (board st) + 50) (out_beakerDoor (board st))
                                 (out_crystalDoor (board st)) (pinlog (board st))) in
       if both_correct inp then
         if doorClosed st then (if alchemyPower st then onSolve y else y)
         else on_LS1 (flash_unless green)
                (if alchemyPower st then digitalWrite beakerDoor HIGH y else y)
       else delay 2000 (on_LS1 (flash_unless red) y)).
Proof.
  unfold reset_read, both_correct. intros H.
  apply orb_false_iff in H as [R0 R1].
  unfold case_Powered. do 4 rewrite seq_app.
  destruct (readers_Powered_eq inp (set_beakersCorrect true st)) as [lu E].
  rewrite E, R0, R1. clear E. exists lu. unfold skip. projections.
  change (when (fun st0 => negb (alchemyPower st0)) _) with
    (when (fun s => negb (alchemyPower s)) power_loss).
  f_equal. cbv zeta.
  destruct (reads_correct inp 0 && reads_correct inp 1).
  - take_else.
    destruct (doorClosed st) eqn:Hd, (alchemyPower st) eqn:Ha.
    + take_else. take_when. reflexivity.
    + take_else. skip_when ltac:(reflexivity). reflexivity.
    + take_then. rewrite !seq_app. take_when. rewrite flash_guard. reflexivity.
    + take_then. rewrite !seq_app.
      match goal with
      | |- context [when ?c (digitalWrite ?p ?v) ?s] =>
          rewrite (when_false c (digitalWrite p v) s) by reflexivity
      end.
      rewrite flash_guard. reflexivity.
  - take_then. rewrite !seq_app. rewrite flash_guard. reflexivity.
Qed.

(** The [Powered] case when a reader returned the reset identifier:
    [onReset] once per such reader, then the red flash and 2000 ms. *)
Lemma case_Powered_reset (inp : Inputs) (st : State) :
  reset_read inp = true ->
  exists lu l b,
    case_Powered inp st =
    when (fun s => negb (alchemyPower s)) power_loss
      (mkState Unpowered (solvedMillis st) (currentMillis st) lu false
               (alchemyPower st) (doorClosed st) l b)
    /\ ActivePattern (LS1 l) = flash /\ Color1 (LS1 l) = red
    /\ out_beakerDoor b = LOW /\ out_crystalDoor b = LOW
    /\ clock b = clock (board st) + 2050 + 120 * reset_count inp
    /\ Z.of_nat (List.length (filter (crystal_write HIGH) (pinlog b)))
       = crystal_releases st + reset_count inp.
Proof.
  unfold reset_read, reset_count, crystal_releases. intros H.
  unfold case_Powered. do 4 rewrite seq_app.
  destruct (readers_Powered_eq inp (set_beakersCorrect true st)) as [lu E].
  rewrite E. clear E.
  change (when (fun st0 => negb (alchemyPower st0)) _) with
    (when (fun s => negb (alchemyPower s)) power_loss).
  pose proof (reset_is_not_correct inp 0) as N0.
  pose proof (reset_is_not_correct inp 1) as N1.
  unfold numReaders in N0, N1.
  destruct (reads_reset inp 0) eqn:R0; [rewrite N0 by (lia || reflexivity)|];
  (destruct (reads_reset inp 1) eqn:R1; [rewrite N1 by (lia || reflexivity)|]);
  try discriminate; rewrite ?andb_false_r; cbn [andb]; unfold skip;
  rewrite ?onReset_eq; projections.
  all: take_then.
  all: rewrite !seq_app, flash_guard.
  all: do 3 eexists; split; [reflexivity|].
  all: cbn [lights LS1 board clock out_beakerDoor out_crystalDoor pinlog on_LS1
            set_lights delay elapse set_board showCurrentStatus skip].
  all: cbn [filter crystal_write ev_pin ev_level Z.eqb Pos.eqb crystalDoor beakerDoor
            level_eqb andb List.length].
  all: repeat split; try reflexivity; try lia.
Qed.

(** ** What each case of [loop()] does to the state variable and the clock *)

Lemma lights_only_lights_off : respects lights_only lights_off_if_active.
Proof. unfold lights_off_if_active. lights_steps. Qed.

Lemma core_alchemyPower (a b : State) : core a = core b -> alchemyPower a = alchemyPower b.
Proof. unfold core. congruence. Qed.

Lemma readers_for_reset_state (inp : Inputs) (st : State) :
  puzzleState (for_ numReaders (read_for_reset inp) st)
  = if reset_seen inp then Unpowered else puzzleState st.
Proof.
  unfold reset_seen. cbn [List.seq numReaders existsb].
  rewrite for_readers. unfold read_for_reset, when, ifelse, skip.
  destruct (same_uid (thisUid (getInventory inp 0)) resetUid),
           (same_uid (thisUid (getInventory inp 1)) resetUid);
    rewrite ?onReset_eq; reflexivity.
Qed.

Lemma readers_for_reset_clock (inp : Inputs) (st : State) :
  clock (board (for_ numReaders (read_for_reset inp) st))
  = clock (board st) + 120 * seen_count inp.
Proof.
  unfold seen_count. rewrite for_readers. unfold read_for_reset, when, ifelse, skip.
  destruct (same_uid (thisUid (getInventory inp 0)) resetUid),
           (same_uid (thisUid (getInventory inp 1)) resetUid);
    rewrite ?onReset_eq; cbn [board clock]; lia.
Qed.

Lemma handler_state (inp : Inputs) (x : State) :
  puzzleState (handler inp (puzzleState x) x)
  = decide_state inp (puzzleState x) (alchemyPower x) (doorClosed x)
                 (u32 (millis x - solvedMillis x)).
Proof.
  destruct (puzzleState x) eqn:HP; cbn [handler decide_state].
  - unfold case_Initializing. rewrite !seq_app. reflexivity.
  - unfold case_Unpowered. rewrite !seq_app.
    pose proof (lights_only_lights_off x) as L. unfold ifelse.
    rewrite (core_alchemyPower _ _ L). destruct (alchemyPower x); reflexivity.
  - destruct (reset_read inp) eqn:R; cbn [orb].
    + destruct (case_Powered_reset inp x R) as (lu & l & b & E & _). rewrite E.
      unfold when, ifelse, skip. cbn [alchemyPower].
      destruct (alchemyPower x); cbn [negb]; [reflexivity|].
      now rewrite power_loss_eq.
    + destruct (case_Powered_cases inp x R) as [lu E]. rewrite E. cbv zeta.
      unfold when, ifelse, skip.
      destruct (both_correct inp), (doorClosed x), (alchemyPower x);
        cbn [andb negb]; rewrite ?onSolve_eq, ?power_loss_eq;
        cbn [alchemyPower negb puzzleState]; rewrite ?power_loss_eq;
        try reflexivity; exact HP.
  - unfold case_Solved. rewrite !seq_app, readers_for_reset_state.
    destruct (reset_seen inp); [reflexivity|].
    unfold ifelse at 1. cbn [currentMillis solvedMillis set_currentMillis].
    destruct (u32 (millis x - solvedMillis x) >? 1800000); [reflexivity|].
    match goal with
    | |- puzzleState (?blk ?y) = _ =>
        assert (L : respects lights_only blk) by lights_steps;
        rewrite (core_puzzleState _ _ (L y))
    end.
    exact HP.
  - unfold case_GameOver. rewrite !seq_app.
    cbn [puzzleState delay elapse set_board]. rewrite readers_for_reset_state.
    destruct (reset_seen inp); [reflexivity|].
    now rewrite (core_puzzleState _ _ (lights_only_lights_off x)).
Qed.

Lemma core_clock (a b : State) : core a = core b -> clock (board a) = clock (board b).
Proof. unfold core. congruence. Qed.

Lemma handler_clock (inp : Inputs) (x : State) :
  clock (board (handler inp (puzzleState x) x))
  = clock (board x) + handler_ms inp (puzzleState x) (alchemyPower x) (doorClosed x).
Proof.
  destruct (puzzleState x) eqn:HP; cbn [handler handler_ms].
  - unfold case_Initializing. rewrite !seq_app.
    cbn [board clock set_puzzleState digitalWrite set_board].
    rewrite (core_clock _ _ (lights_only_lights_off x)). lia.
  - unfold case_Unpowered. rewrite !seq_app. unfold ifelse.
    destruct (alchemyPower (lights_off_if_active x));
      cbn [board clock set_puzzleState delay elapse set_board];
      now rewrite (core_clock _ _ (lights_only_lights_off x)).
  - destruct (reset_read inp) eqn:R.
    + destruct (case_Powered_reset inp x R) as (lu & l & b & E & _ & _ & _ & _ & Hc & _).
      rewrite E. unfold when, ifelse, skip. cbn [alchemyPower].
      destruct (alchemyPower x); cbn [negb]; rewrite ?power_loss_eq;
        cbn [board clock]; lia.
    + destruct (case_Powered_cases inp x R) as [lu E]. rewrite E. cbv zeta.
      unfold when, ifelse, skip.
      destruct (both_correct inp), (doorClosed x), (alchemyPower x);
        cbn [andb negb]; rewrite ?onSolve_eq;
        cbn [alchemyPower negb on_LS1 set_lights digitalWrite delay elapse set_board];
        rewrite ?power_loss_eq;
        cbn [board clock on_LS1 set_lights digitalWrite delay elapse set_board]; lia.
  - unfold case_Solved. rewrite !seq_app, readers_for_reset_clock.
    f_equal. unfold ifelse.
    match goal with |- context [if ?c then _ else _] => destruct c end.
    + now rewrite gameOver_eq.
    + match goal with
      | |- clock (board (?blk ?y)) = _ =>
          assert (L : respects lights_only blk) by lights_steps;
          rewrite (core_clock _ _ (L y))
      end.
      reflexivity.
  - unfold case_GameOver. rewrite !seq_app.
    cbn [board clock delay elapse set_board]. rewrite readers_for_reset_clock.
    rewrite (core_clock _ _ (lights_only_lights_off x)). lia.
Qed.

(** ** The common tail of [loop()] with its remote commands *)

Lemma commands_state (ms : list (list byte)) : forall st,
  puzzleState (fold_left (fun s m => callback m s) ms st)
  = after_commands ms (puzzleState st).
Proof.
  induction ms as [|m ms IH]; intros st; [reflexivity|].
  cbn [fold_left after_commands]. rewrite IH. f_equal.
  rewrite callback_eq. unfold command_state.
  destruct (is_command "solve" m); [now rewrite onSolve_eq|].
  destruct (is_command "reset" m); [now rewrite onReset_eq | reflexivity].
Qed.

Lemma commands_clock (ms : list (list byte)) : forall st,
  clock (board (fold_left (fun s m => callback m s) ms st))
  = clock (board st) + commands_ms ms.
Proof.
  induction ms as [|m ms IH]; intros st.
  - cbn. lia.
  - cbn [fold_left]. rewrite IH. unfold commands_ms. cbn [map fold_right].
    fold (commands_ms ms).
    rewrite callback_eq. unfold command_ms.
    destruct (is_command "solve" m); [rewrite onSolve_eq; cbn [board clock]; lia|].
    destruct (is_command "reset" m); [rewrite onReset_eq; cbn [board clock]; lia|].
    lia.
Qed.

Lemma loop_tail_commands (inp : Inputs) (st : State) :
  core (loop_tail inp st) = core (client_loop inp (delay 50 st)).
Proof. reflexivity. Qed.

Lemma loop_tail_state (inp : Inputs) (st : State) :
  puzzleState (loop_tail inp st) = after_commands (mqtt inp) (puzzleState st).
Proof.
  rewrite (core_puzzleState _ _ (loop_tail_commands _ _)).
  unfold client_loop. now rewrite commands_state.
Qed.

Lemma after_commands_not_Initializing (ms : list (list byte)) : forall p,
  p <> Initializing -> after_commands ms p <> Initializing.
Proof.
  induction ms as [|m ms IH]; intros p Hp; [exact Hp|].
  cbn [after_commands fold_left]. apply IH. unfold command_state.
  destruct (is_command "solve" m); [discriminate|].
  destruct (is_command "reset" m); [discriminate | exact Hp].
Qed.

(** X1: the transition function of [loop()].  After one execution of
    [loop()], from any state and for any inputs, the state variable is the
    one the case taken decides ([next_state]: [Initializing] goes to
    [Unpowered]; [Unpowered] to [Powered] exactly when the laser is seen;
    [Powered] to [Unpowered] on a reset tag or when the laser is lost, to
    [Solved] when both tags are correct and the door is closed, and stays
    otherwise; [Solved] to [Unpowered] on a reset identifier, to [GameOver]
    past the dwell; [GameOver] to [Unpowered] on a reset identifier),
    overridden in order by every remote "solve" or "reset" that
    [client.loop()] delivers. *)
Theorem loop_next_state (inp : Inputs) (st : State) :
  puzzleState (loop inp st) = after_commands (mqtt inp) (next_state inp st).
Proof.
  rewrite loop_unfold, loop_tail_state. f_equal.
  exact (handler_state inp (sample inp st)).
Qed.

(** X2: how long [loop()] blocks.  One execution of [loop()] advances the
    clock by exactly [tick_ms] (50 ms in [Initializing]; 150 ms in
    [Unpowered]; in [Powered] 100 ms, plus 2000 ms when the tags are not
    both correct, 5160 ms when the puzzle is solved, 120 ms per reset tag
    read, 200 ms when power is lost; 50 ms in [Solved] and 1050 ms in
    [GameOver], plus 120 ms per reader buffer holding the reset
    identifier), plus 5160 ms for every remote "solve" and 120 ms for every
    remote "reset". *)
Theorem tick_duration (inp : Inputs) (st : State) :
  clock (board (loop inp st))
  = clock (board st) + tick_ms inp st + commands_ms (mqtt inp).
Proof.
  rewrite loop_unfold.
  rewrite (core_clock _ _ (loop_tail_commands _ _)).
  unfold client_loop. rewrite commands_clock.
  cbn [board clock delay elapse set_board].
  pose proof (handler_clock inp (sample inp st)) as H.
  change (puzzleState (sample inp st)) with (puzzleState st) in H.
  rewrite H. unfold tick_ms.
  change (alchemyPower (sample inp st)) with (alchemyPower_of inp).
  change (doorClosed (sample inp st)) with (doorClosed_of inp).
  change (board (sample inp st)) with (board st). lia.
Qed.

(** X3: [Initializing] is never entered again.  Whatever the state and
    the inputs (remote commands included), [loop()] does not leave the
    sketch in [Initializing]; so the sketch is in that state only before
    its first tick ([onReset] goes to [Unpowered] directly). *)
Theorem never_Initializing_again :
  (forall (inp : Inputs) (st : State), puzzleState (loop inp st) <> Initializing)
  /\ (forall (ins : list Inputs) (inp : Inputs) (st : State),
        puzzleState (run (ins ++ [inp]) st) <> Initializing).
Proof.
  assert (L : forall inp st, puzzleState (loop inp st) <> Initializing).
  { intros inp st. rewrite loop_unfold, loop_tail_state.
    apply after_commands_not_Initializing.
    pose proof (handler_state inp (sample inp st)) as H.
    change (puzzleState (sample inp st)) with (puzzleState st) in H.
    rewrite H. unfold decide_state.
    destruct (puzzleState st);
      repeat match goal with |- context [if ?c then _ else _] => destruct c end;
      discriminate. }
  split; [exact L|].
  intros ins inp st. rewrite run_app. apply L.
Qed.

(** ** The record of the last identifiers *)

Lemma store_same {A} (d v : A) (l : list A) : forall i,
  nth i l d = v -> store i v l = l.
Proof.
  induction l as [|x l IH]; intros [|i] H; cbn in *; try reflexivity.
  - now subst.
  - now rewrite IH.
Qed.

Lemma read_Powered_lastUid (inp : Inputs) (i : nat) (st : State) :
  lastUid (read_Powered inp i st) = store i (seen inp i) (lastUid st).
Proof.
  destruct_state st. unfold read_Powered, seen, poll. cbv zeta.
  destruct (rc (getInventory inp i) =? ISO15693_EC_OK); cbn [negb].
  - destruct (same_uid (thisUid (getInventory inp i)) (nth i correctUid noUid));
    destruct (same_uid (thisUid (getInventory inp i)) resetUid);
    cbn [negb]; exec;
    match goal with |- context [same_uid ?a ?b] => destruct (same_uid a b) eqn:E end;
    cbn [negb]; rewrite ?onReset_eq; cbn [lastUid];
    try reflexivity;
    apply same_uid_iff in E; symmetry; apply (store_same noUid); now rewrite E.
  - exec.
    match goal with |- context [same_uid ?a ?b] => destruct (same_uid a b) eqn:E end;
    cbn [negb lastUid]; [|reflexivity].
    apply same_uid_iff in E. symmetry. now apply (store_same noUid).
Qed.

Lemma same_uids_refl (st : State) : same_uids st st.
Proof. reflexivity. Qed.

Lemma same_uids_trans (a b c : State) : same_uids a b -> same_uids b c -> same_uids a c.
Proof. unfold same_uids. congruence. Qed.

Lemma same_uids_onReset : respects same_uids onReset.
Proof. intros st. unfold same_uids. now rewrite onReset_eq. Qed.

Lemma same_uids_onSolve : respects same_uids onSolve.
Proof. intros st. unfold same_uids. now rewrite onSolve_eq. Qed.

Lemma same_uids_callback (m : list byte) : respects same_uids (callback m).
Proof.
  intros st. unfold same_uids. rewrite callback_eq.
  destruct (is_command "solve" m); [now rewrite onSolve_eq|].
  destruct (is_command "reset" m); [now rewrite onReset_eq | reflexivity].
Qed.

Ltac uid_steps :=
  repeat lazymatch goal with
    | |- respects _ (seq _ _) => apply (respects_seq same_uids same_uids_trans)
    | |- respects _ (when _ _) => apply (respects_when same_uids same_uids_refl)
    | |- respects _ (ifelse _ _ _) => apply (respects_ifelse same_uids)
    | |- respects _ (for_ _ _) =>
        apply (respects_for same_uids same_uids_refl same_uids_trans); intros ?
    | |- respects _ skip => apply (respects_skip same_uids same_uids_refl)
    | |- respects _ onReset => exact same_uids_onReset
    | |- respects _ onSolve => exact same_uids_onSolve
    | |- respects _ (read_for_reset _ _) => unfold read_for_reset
    | |- respects _ lights_off_if_active => unfold lights_off_if_active
    | |- respects _ gameOver => unfold gameOver
    | |- respects _ (on_LS1 _) => intros ?; reflexivity
    | |- respects _ (on_LS2 _) => intros ?; reflexivity
    | |- respects _ (on_LS3 _) => intros ?; reflexivity
    | |- respects _ (on_LS4 _) => intros ?; reflexivity
    | |- respects _ (delay _) => intros ?; reflexivity
    | |- respects _ (digitalWrite _ _) => intros ?; reflexivity
    | |- respects _ (set_puzzleState _) => intros ?; reflexivity
    | |- respects _ (set_beakersCorrect _) => intros ?; reflexivity
    | |- respects _ showCurrentStatus => intros ?; reflexivity
    | |- respects _ (fun st => set_currentMillis _ st) => intros ?; reflexivity
    end.

Lemma same_uids_tail (inp : Inputs) : respects same_uids (loop_tail inp).
Proof.
  unfold loop_tail. uid_steps.
  unfold client_loop. apply (respects_fold same_uids same_uids_refl same_uids_trans).
  apply same_uids_callback.
Qed.

Lemma handler_lastUid (inp : Inputs) (p : PuzzleState) (x : State) :
  lastUid (handler inp p x)
  = match p with
    | Powered => store 1 (seen inp 1) (store 0 (seen inp 0) (lastUid x))
    | _ => lastUid x
    end.
Proof.
  destruct p; cbn [handler].
  - assert (F : respects same_uids case_Initializing)
      by (unfold case_Initializing; uid_steps).
    apply F.
  - assert (F : respects same_uids case_Unpowered)
      by (unfold case_Unpowered; uid_steps).
    apply F.
  - unfold case_Powered. do 2 rewrite seq_app.
    match goal with
    | |- lastUid (?rest ?y) = _ =>
        assert (F : respects same_uids rest) by uid_steps;
        rewrite (F y)
    end.
    rewrite for_readers, !read_Powered_lastUid. reflexivity.
  - assert (F : respects same_uids (case_Solved inp))
      by (unfold case_Solved; uid_steps).
    apply F.
  - assert (F : respects same_uids (case_GameOver inp))
      by (unfold case_GameOver; uid_steps).
    apply F.
Qed.

(** X4: [lastUid] follows the readers in [Powered] only.  A tick taken in
    [Powered] leaves in [lastUid[i]] what reader [i] returned in that tick:
    the identifier read, or zeros when the read failed (whatever the buffer
    held); [onReset], [onSolve] and the remote commands leave the array
    alone.  A tick taken in any other state leaves [lastUid] as it was,
    although the [Solved] and [GameOver] cases poll the readers. *)
Theorem lastUid_tracks_readers :
  (forall (inp : Inputs) (st : State),
     lastUid (loop inp st)
     = match puzzleState st with
       | Powered => store 1 (seen inp 1) (store 0 (seen inp 0) (lastUid st))
       | _ => lastUid st
       end)
  /\ (forall (inp : Inputs) (a b : Uid),
        store 1 (seen inp 1) (store 0 (seen inp 0) [a; b]) = [seen inp 0; seen inp 1]).
Proof.
  split; [|reflexivity].
  intros inp st. rewrite loop_unfold, (same_uids_tail inp).
  now rewrite handler_lastUid.
Qed.

(** ** The [Powered] case, tick by tick *)

Lemma both_correct_no_reset (inp : Inputs) :
  both_correct inp = true -> reset_read inp = false.
Proof.
  unfold both_correct, reset_read. intros H.
  apply andb_true_iff in H as [C0 C1].
  pose proof (reset_is_not_correct inp 0) as N0.
  pose proof (reset_is_not_correct inp 1) as N1.
  unfold numReaders in N0, N1.
  destruct (reads_reset inp 0); [rewrite N0 in C0 by (lia || reflexivity); discriminate|].
  destruct (reads_reset inp 1); [rewrite N1 in C1 by (lia || reflexivity); discriminate|].
  reflexivity.
Qed.

Lemma loop_tail_idle (inp : Inputs) (st : State) :
  no_command inp = true ->
  loop_tail inp st
  = (on_LS1 Update ;; on_LS2 Update ;; on_LS3 Update ;; on_LS4 Update) (delay 50 st).
Proof.
  intros H. unfold loop_tail. now rewrite !seq_app, client_loop_idle.
Qed.

Lemma flash_unless_running (c : Z) (s : NeoPatterns.t) :
  ActivePattern s = flash -> Color1 s = c -> flash_unless c s = s.
Proof.
  intros H1 H2. unfold flash_unless. now rewrite H1, H2, Z.eqb_refl.
Qed.

(** X5: the engage branch.  From [Powered], a tick with the laser seen,
    the door open and both correct tags read (no remote command) stays in
    [Powered], drives the beaker lock [HIGH] 50 ms into the tick (the only
    pin written), lasts 100 ms, and starts the green flash on the beaker
    strip unless that very flash is already running. *)
Theorem engage_tick (inp : Inputs) (st : State) :
  puzzleState st = Powered ->
  alchemyPower_of inp = true -> doorClosed_of inp = false ->
  both_correct inp = true -> no_command inp = true ->
  puzzleState (loop inp st) = Powered
  /\ board (loop inp st)
     = mkBoard (clock (board st) + 100) HIGH (out_crystalDoor (board st))
               (mkEv (clock (board st) + 50) beakerDoor HIGH :: pinlog (board st))
  /\ LS1_ (loop inp st) = Update (flash_unless green (LS1_ st)).
Proof.
  intros HP Hp Hd Hb Hc. rewrite loop_unfold, HP. cbn [handler].
  rewrite loop_tail_idle by exact Hc.
  destruct (case_Powered_cases inp (sample inp st) (both_correct_no_reset inp Hb))
    as [lu E].
  rewrite E. clear E. cbv zeta.
  change (alchemyPower (sample inp st)) with (alchemyPower_of inp).
  change (doorClosed (sample inp st)) with (doorClosed_of inp).
  rewrite Hb, Hp, Hd. rewrite when_false by reflexivity.
  destruct_state st. cbn [puzzleState] in HP. subst.
  unfold sample. exec. unfold LS1_. cbn [lights LS1].
  split; [reflexivity | split; [|reflexivity]].
  repeat (f_equal; try lia).
Qed.

(** X6: incorrect beakers.  From [Powered], a tick with the laser seen in
    which no reader returns the reset tag and the tags are not both correct
    (no remote command) stays in [Powered], writes no pin, blocks for
    2100 ms, and starts the red flash on the beaker strip unless it is
    already running: a red flash in progress is stepped, not restarted. *)
Theorem incorrect_tick (inp : Inputs) (st : State) :
  puzzleState st = Powered ->
  alchemyPower_of inp = true ->
  reset_read inp = false -> both_correct inp = false -> no_command inp = true ->
  puzzleState (loop inp st) = Powered
  /\ board (loop inp st)
     = mkBoard (clock (board st) + 2100) (out_beakerDoor (board st))
               (out_crystalDoor (board st)) (pinlog (board st))
  /\ LS1_ (loop inp st) = Update (flash_unless red (LS1_ st))
  /\ (ActivePattern (LS1_ st) = flash -> Color1 (LS1_ st) = red ->
      LS1_ (loop inp st) = Update (LS1_ st)).
Proof.
  intros HP Hp Hr Hb Hc. rewrite loop_unfold, HP. cbn [handler].
  rewrite loop_tail_idle by exact Hc.
  destruct (case_Powered_cases inp (sample inp st) Hr) as [lu E].
  rewrite E. clear E. cbv zeta.
  change (alchemyPower (sample inp st)) with (alchemyPower_of inp).
  rewrite Hb, Hp. rewrite when_false by reflexivity.
  destruct_state st. cbn [puzzleState] in HP. subst.
  unfold sample. exec. unfold LS1_. cbn [lights LS1].
  split; [reflexivity | split; [|split; [reflexivity|]]].
  - repeat (f_equal; try lia).
  - intros H1 H2. now rewrite flash_unless_running.
Qed.

(** X7: the readers are not looked at without power.  In [Initializing]
    and in [Unpowered], two ticks that agree on the laser sensor, the door
    switch and the remote messages leave the same state, whatever the
    readers return. *)
Theorem readers_not_polled_without_power (inp inp' : Inputs) (st : State) :
  puzzleState st = Initializing \/ puzzleState st = Unpowered ->
  digitalRead inp laserPin = digitalRead inp' laserPin ->
  digitalRead inp limitSwitch = digitalRead inp' limitSwitch ->
  mqtt inp = mqtt inp' ->
  loop inp st = loop inp' st.
Proof.
  intros HP H1 H2 H3. rewrite !loop_unfold.
  unfold loop_tail, client_loop, sample, alchemyPower_of, doorClosed_of.
  rewrite H1, H2, H3. destruct HP as [-> | ->]; reflexivity.
Qed.

(** ** The beaker lock: when it is engaged, and that [GameOver] releases it *)

Lemma not_raised_refl (st : State) : not_raised st st.
Proof. intros H. exact H. Qed.

Lemma not_raised_trans (a b c : State) :
  not_raised a b -> not_raised b c -> not_raised a c.
Proof. unfold not_raised. auto. Qed.

Lemma not_raised_untouched (s : stmt) :
  respects beaker_untouched s -> respects not_raised s.
Proof. intros H st. destruct (H st) as [E _]. unfold not_raised. congruence. Qed.

Lemma not_raised_onReset : respects not_raised onReset.
Proof. intros st. unfold not_raised. rewrite onReset_eq. discriminate. Qed.

Lemma not_raised_gameOver : respects not_raised gameOver.
Proof. intros st. unfold not_raised. rewrite gameOver_eq. discriminate. Qed.

Lemma not_raised_callback (m : list byte) : respects not_raised (callback m).
Proof.
  intros st. rewrite callback_eq.
  destruct (is_command "solve" m); [apply not_raised_untouched, frame_onSolve|].
  destruct (is_command "reset" m); [apply not_raised_onReset | apply not_raised_refl].
Qed.

Ltac raise_steps :=
  repeat lazymatch goal with
    | |- respects _ (seq _ _) => apply (respects_seq not_raised not_raised_trans)
    | |- respects _ (when _ _) => apply (respects_when not_raised not_raised_refl)
    | |- respects _ (ifelse _ _ _) => apply (respects_ifelse not_raised)
    | |- respects _ (for_ _ _) =>
        apply (respects_for not_raised not_raised_refl not_raised_trans); intros ?
    | |- respects _ skip => apply (respects_skip not_raised not_raised_refl)
    | |- respects _ onReset => exact not_raised_onReset
    | |- respects _ gameOver => exact not_raised_gameOver
    | |- respects _ (read_for_reset _ _) => unfold read_for_reset
    | |- respects _ lights_off_if_active =>
        exact (not_raised_untouched _ frame_lights_off)
    | |- _ =>
        solve [ apply not_raised_untouched, beaker_untouched_quiet;
                auto 1 with quiet nocore ]
    end.

Lemma not_raised_tail (inp : Inputs) : respects not_raised (loop_tail inp).
Proof.
  unfold loop_tail.
  apply (respects_seq not_raised not_raised_trans); [raise_steps|].
  apply (respects_seq not_raised not_raised_trans); [|raise_steps].
  unfold client_loop. apply (respects_fold not_raised not_raised_refl not_raised_trans).
  apply not_raised_callback.
Qed.

(** The only case of [loop()] that can raise the beaker lock is the engage
    branch. *)
Lemma handler_raise (inp : Inputs) (x : State) :
  out_beakerDoor (board (handler inp (puzzleState x) x)) = HIGH ->
  out_beakerDoor (board x) = HIGH
  \/ (puzzleState x = Powered
      /\ alchemyPower x && negb (doorClosed x) && both_correct inp = true).
Proof.
  destruct (puzzleState x) eqn:HP; cbn [handler].
  - unfold case_Initializing. rewrite !seq_app.
    cbn [out_beakerDoor board set_puzzleState digitalWrite set_board
         Z.eqb Pos.eqb beakerDoor].
    discriminate.
  - intros H. left. now rewrite <- (proj1 (frame_Unpowered x)).
  - destruct (reset_read inp) eqn:R.
    + destruct (case_Powered_reset inp x R) as (lu & l & b & E & _ & _ & Hb & _).
      rewrite E. unfold when, ifelse, skip. cbn [alchemyPower].
      destruct (alchemyPower x); cbn [negb]; rewrite ?power_loss_eq;
        cbn [board out_beakerDoor]; rewrite Hb; discriminate.
    + destruct (case_Powered_cases inp x R) as [lu E]. rewrite E. cbv zeta.
      unfold when, ifelse, skip.
      destruct (both_correct inp), (doorClosed x), (alchemyPower x);
        cbn [andb negb]; rewrite ?onSolve_eq;
        cbn [alchemyPower negb on_LS1 set_lights digitalWrite delay elapse set_board];
        rewrite ?power_loss_eq;
        cbn [board out_beakerDoor on_LS1 set_lights digitalWrite delay elapse set_board];
        intros H; (left; exact H) || (right; split; reflexivity).
  - assert (F : respects not_raised (case_Solved inp))
      by (unfold case_Solved; raise_steps).
    intros H. left. exact (F x H).
  - assert (F : respects not_raised (case_GameOver inp))
      by (unfold case_GameOver; raise_steps).
    intros H. left. exact (F x H).
Qed.

(** X8: the beaker lock is engaged by the engage branch and by nothing
    else.  If the beaker lock is held after an execution of [loop()]
    (whatever the state and the inputs, remote commands included), then it
    was held before, or the tick was taken in [Powered] with the laser seen,
    the door open and both correct tags read. *)
Theorem beaker_engaged_only_by (inp : Inputs) (st : State) :
  out_beakerDoor (board (loop inp st)) = HIGH ->
  out_beakerDoor (board st) = HIGH \/ engages inp st = true.
Proof.
  rewrite loop_unfold. intros H. apply (not_raised_tail inp) in H.
  apply (handler_raise inp (sample inp st)) in H. destruct H as [H | [HP H]].
  - left. exact H.
  - right. unfold engages. change (puzzleState (sample inp st)) with (puzzleState st) in HP.
    rewrite HP. exact H.
Qed.

Lemma released_callback (m : list byte) (st : State) :
  released_at_game_over st -> released_at_game_over (callback m st).
Proof.
  intros H. rewrite callback_eq.
  destruct (is_command "solve" m); [intros E; now rewrite onSolve_eq in E|].
  destruct (is_command "reset" m); [intros E; now rewrite onReset_eq in E | exact H].
Qed.

Lemma released_commands (ms : list (list byte)) : forall st,
  released_at_game_over st ->
  released_at_game_over (fold_left (fun s m => callback m s) ms st).
Proof.
  induction ms as [|m ms IH]; intros st H; [exact H|].
  cbn [fold_left]. apply IH, released_callback, H.
Qed.

Lemma released_handler (inp : Inputs) (x : State) :
  released_at_game_over x -> released_at_game_over (handler inp (puzzleState x) x).
Proof.
  intros Hx H. pose proof (handler_state inp x) as S. rewrite H in S.
  destruct (puzzleState x) eqn:HP; cbn [decide_state handler] in *;
    try (repeat match type of S with
                | context [if ?c then _ else _] => destruct c
                end; discriminate).
  - destruct (reset_seen inp) eqn:Hr; [discriminate|].
    destruct (u32 (millis x - solvedMillis x) >? 1800000) eqn:He; [|discriminate].
    unfold case_Solved. rewrite !seq_app, readers_no_reset by exact Hr.
    rewrite ifelse_true by exact He. now rewrite gameOver_eq.
  - destruct (reset_seen inp) eqn:Hr; [discriminate|].
    rewrite (proj1 (frame_GameOver inp Hr x)). now apply Hx.
Qed.

Lemma released_loop (inp : Inputs) (st : State) :
  released_at_game_over st -> released_at_game_over (loop inp st).
Proof.
  intros H. rewrite loop_unfold.
  assert (Hh : released_at_game_over
                 (client_loop inp (delay 50 (handler inp (puzzleState st) (sample inp st))))).
  { apply released_commands.
    exact (released_handler inp (sample inp st) H). }
  unfold released_at_game_over in *.
  rewrite (core_puzzleState _ _ (loop_tail_commands _ _)).
  rewrite (core_board _ _ (loop_tail_commands _ _)).
  exact Hh.
Qed.

(** X9: [GameOver] always has the beaker lock released.  In every state
    the sketch can be in at the start of a tick, whatever the inputs of the
    run (remote commands included), the state [GameOver] comes with the
    beaker lock output low: [gameOver()] releases it and nothing engages it
    again before a reset. *)
Theorem game_over_releases_beaker (ins : list Inputs) :
  puzzleState (run ins booted) = GameOver ->
  out_beakerDoor (board (run ins booted)) = LOW.
Proof.
  change (released_at_game_over (run ins booted)).
  induction ins as [|inp ins IH] using rev_ind.
  - intros H. reflexivity.
  - rewrite run_app. apply released_loop, IH.
Qed.

(** ** The dwell of [Solved] and the wrap-around of [millis()] *)

(** X10: the dwell test survives the wrap-around of [millis()].  If the
    solve timestamp was taken when the clock showed [T] and the tick starts
    [d] ms later, [d] below 2^32, then (no reset identifier in a reader
    buffer, no remote command) the tick moves [Solved] to [GameOver] exactly
    when [d] exceeds 1,800,000, also when the 32-bit counter wrapped between
    the two instants. *)
Theorem dwell_across_rollover (inp : Inputs) (st : State) (T d : Z) :
  puzzleState st = Solved ->
  solvedMillis st = u32 T -> clock (board st) = T + d -> 0 <= d < 2 ^ 32 ->
  reset_seen inp = false -> no_command inp = true ->
  puzzleState (loop inp st) = if d >? 1800000 then GameOver else Solved.
Proof.
  intros HS Hs Hc Hd Hr Hcmd.
  rewrite loop_unfold, loop_tail_state. unfold no_command in Hcmd.
  destruct (mqtt inp); [|discriminate]. cbn [after_commands fold_left].
  pose proof (handler_state inp (sample inp st)) as H.
  change (puzzleState (sample inp st)) with (puzzleState st) in H.
  rewrite H, HS. cbn [decide_state]. rewrite Hr.
  change (millis (sample inp st)) with (u32 (clock (board st))).
  change (solvedMillis (sample inp st)) with (solvedMillis st).
  now rewrite Hs, Hc, u32_elapsed.
Qed.

(** ** The theorems of this part at concrete inputs *)

Lemma engage_tick_witness :
  puzzleState (loop tick_correct_open st_powered) = Powered
  /\ board (loop tick_correct_open st_powered)
     = mkBoard (clock (board st_powered) + 100) HIGH (out_crystalDoor (board st_powered))
               (mkEv (clock (board st_powered) + 50) beakerDoor HIGH
                :: pinlog (board st_powered))
  /\ LS1_ (loop tick_correct_open st_powered)
     = Update (flash_unless green (LS1_ st_powered)).
Proof. apply (engage_tick tick_correct_open st_powered); reflexivity. Defined.

Lemma incorrect_tick_witness :
  puzzleState (loop tick_power st_powered) = Powered
  /\ clock (board (loop tick_power st_powered)) = clock (board st_powered) + 2100.
Proof.
  destruct (incorrect_tick tick_power st_powered) as (H1 & H2 & _); try reflexivity.
  split; [exact H1 | now rewrite H2].
Defined.

Lemma readers_not_polled_without_power_witness :
  loop tick_idle booted = loop tick_failed_read booted.
Proof.
  apply (readers_not_polled_without_power tick_idle tick_failed_read booted);
    [left|..]; reflexivity.
Defined.

Lemma beaker_engaged_only_by_witness :
  out_beakerDoor (board (loop tick_correct_open st_powered)) = HIGH
  /\ (out_beakerDoor (board st_powered) = HIGH
      \/ engages tick_correct_open st_powered = true).
Proof.
  assert (H : out_beakerDoor (board (loop tick_correct_open st_powered)) = HIGH)
    by reflexivity.
  split; [exact H | exact (beaker_engaged_only_by tick_correct_open st_powered H)].
Defined.

Lemma game_over_releases_beaker_witness :
  puzzleState (run (to_dwell ++ [tick_idle; tick_idle]) booted) = GameOver
  /\ out_beakerDoor (board (run (to_dwell ++ [tick_idle; tick_idle]) booted)) = LOW.
Proof.
  assert (H : puzzleState (run (to_dwell ++ [tick_idle; tick_idle]) booted) = GameOver)
    by (vm_compute; reflexivity).
  split; [exact H | exact (game_over_releases_beaker _ H)].
Defined.

Lemma dwell_across_rollover_witness :
  millis st_wrapped < solvedMillis st_wrapped
  /\ puzzleState (loop tick_idle st_wrapped) = GameOver.
Proof.
  split; [reflexivity|].
  apply (dwell_across_rollover tick_idle st_wrapped (2 ^ 32 - 1000) 1800001);
    try reflexivity.
  split; [discriminate | reflexivity].
Defined.

(** * The releases of the crystal latch *)

Lemma readers_for_reset_releases (inp : Inputs) (st : State) :
  crystal_releases (for_ numReaders (read_for_reset inp) st)
  = crystal_releases st + seen_count inp.
Proof.
  unfold seen_count, crystal_releases. rewrite for_readers.
  unfold read_for_reset, when, ifelse, skip.
  destruct (same_uid (thisUid (getInventory inp 0)) resetUid),
           (same_uid (thisUid (getInventory inp 1)) resetUid);
    rewrite ?onReset_eq; cbn [board pinlog];
    cbn [filter crystal_write ev_pin ev_level Z.eqb Pos.eqb crystalDoor beakerDoor
         level_eqb andb List.length]; lia.
Qed.

Lemma core_releases (a b : State) :
  core a = core b -> crystal_releases a = crystal_releases b.
Proof. intros H. unfold crystal_releases. now rewrite (core_board _ _ H). Qed.

Lemma handler_crystal (inp : Inputs) (x : State) :
  crystal_releases (handler inp (puzzleState x) x)
  = crystal_releases x
    + handler_releases inp (puzzleState x) (alchemyPower x) (doorClosed x).
Proof.
  destruct (puzzleState x) eqn:HP; cbn [handler handler_releases].
  - unfold case_Initializing. rewrite !seq_app. unfold crystal_releases.
    cbn [board pinlog set_puzzleState digitalWrite set_board].
    cbn [filter crystal_write ev_pin ev_level Z.eqb Pos.eqb crystalDoor beakerDoor
         level_eqb andb List.length].
    rewrite (core_board _ _ (lights_only_lights_off x)). lia.
  - unfold case_Unpowered. rewrite !seq_app. unfold ifelse, crystal_releases.
    destruct (alchemyPower (lights_off_if_active x));
      cbn [board pinlog set_puzzleState delay elapse set_board];
      rewrite (core_board _ _ (lights_only_lights_off x)); lia.
  - destruct (reset_read inp) eqn:R.
    + destruct (case_Powered_reset inp x R) as (lu & l & b & E & _ & _ & _ & _ & _ & Hc).
      rewrite E. unfold when, ifelse, skip. cbn [alchemyPower].
      unfold crystal_releases at 1.
      destruct (alchemyPower x); cbn [negb]; rewrite ?power_loss_eq;
        cbn [board pinlog]; exact Hc.
    + destruct (case_Powered_cases inp x R) as [lu E]. rewrite E. cbv zeta.
      unfold when, ifelse, skip, crystal_releases.
      destruct (both_correct inp), (doorClosed x), (alchemyPower x);
        cbn [andb negb]; rewrite ?onSolve_eq;
        cbn [alchemyPower negb on_LS1 set_lights digitalWrite delay elapse set_board];
        rewrite ?power_loss_eq;
        cbn [board pinlog on_LS1 set_lights digitalWrite delay elapse set_board];
        cbn [filter crystal_write ev_pin ev_level Z.eqb Pos.eqb crystalDoor beakerDoor
             level_eqb andb List.length]; lia.
  - unfold case_Solved. rewrite !seq_app, readers_for_reset_releases.
    f_equal. unfold ifelse.
    match goal with |- context [if ?c then _ else _] => destruct c end.
    + rewrite gameOver_eq. unfold crystal_releases. cbn [board pinlog].
      cbn [filter crystal_write ev_pin ev_level Z.eqb Pos.eqb crystalDoor beakerDoor
           level_eqb andb List.length]. reflexivity.
    + match goal with
      | |- crystal_releases (?blk ?y) = _ =>
          assert (L : respects lights_only blk) by lights_steps;
          rewrite (core_releases _ _ (L y))
      end.
      reflexivity.
  - unfold case_GameOver. rewrite !seq_app.
    change (crystal_releases (delay 1000 ?s)) with (crystal_releases s).
    rewrite readers_for_reset_releases.
    now rewrite (core_releases _ _ (lights_only_lights_off x)).
Qed.

Lemma commands_crystal (ms : list (list byte)) : forall st,
  crystal_releases (fold_left (fun s m => callback m s) ms st)
  = crystal_releases st + commands_releases ms.
Proof.
  induction ms as [|m ms IH]; intros st.
  - cbn. lia.
  - cbn [fold_left]. rewrite IH. unfold commands_releases. cbn [map fold_right].
    fold (commands_releases ms).
    rewrite callback_eq. unfold command_releases, crystal_releases.
    destruct (is_command "solve" m); cbn [orb].
    { rewrite onSolve_eq. cbn [board pinlog].
      cbn [filter crystal_write ev_pin ev_level Z.eqb Pos.eqb crystalDoor beakerDoor
           level_eqb andb List.length]. lia. }
    destruct (is_command "reset" m).
    { rewrite onReset_eq. cbn [board pinlog].
      cbn [filter crystal_write ev_pin ev_level Z.eqb Pos.eqb crystalDoor beakerDoor
           level_eqb andb List.length]. lia. }
    lia.
Qed.

(** X16: which ticks release the crystal latch.  One execution of
    [loop()], from any state and for any inputs, drives the crystal lock
    [HIGH] once for the solve of the [Powered] case (laser seen, door closed,
    both tags correct, no reset tag), once for every reset tag read in
    [Powered], once for every reader buffer that holds the reset identifier
    in [Solved] and [GameOver], once for every remote "solve" and once for
    every remote "reset", and at no other time: a reset releases the latch
    exactly as a solve does. *)
Theorem crystal_release_count (inp : Inputs) (st : State) :
  crystal_releases (loop inp st)
  = crystal_releases st
    + handler_releases inp (puzzleState st) (alchemyPower_of inp) (doorClosed_of inp)
    + commands_releases (mqtt inp).
Proof.
  rewrite loop_unfold.
  rewrite (core_releases _ _ (loop_tail_commands _ _)).
  unfold client_loop. rewrite commands_crystal.
  change (crystal_releases (delay 50 ?s)) with (crystal_releases s).
  pose proof (handler_crystal inp (sample inp st)) as H.
  change (puzzleState (sample inp st)) with (puzzleState st) in H.
  rewrite H. reflexivity.
Qed.

(** * The wait loop of [onSolve()] *)

(** The wait loop started at clock [c0], [k] passes done, [n] to go, with
    fuel for [n] passes or more. *)
Lemma wait_loop_fuel (c0 : Z) (n : nat) : forall (f k : nat) (st : State),
  (k + n = wait_passes)%nat -> (n <= f)%nat ->
  clock (board st) = c0 + Z.of_nat k ->
  while_ f (fun s => u32 (millis s - u32 c0) <? 5000)
           (on_LS2 Update ;; on_LS3 Update ;; on_LS4 Update ;; elapse 1) st
  = set_lights (Nat.iter n wait_pass (lights st)) (elapse (Z.of_nat n) st).
Proof.
  induction n as [|n IH]; intros f k st Hk Hf Hc.
  - assert (Hcond : (u32 (millis st - u32 c0) <? 5000) = false).
    { unfold millis. rewrite Hc, u32_elapsed by (unfold wait_passes in Hk; lia).
      apply Z.ltb_ge. unfold wait_passes in Hk. lia. }
    destruct f as [|f]; [|rewrite while_S; cbv beta; rewrite Hcond];
      destruct_state st; exec; cbn [Nat.iter nat_rect Z.of_nat];
      now rewrite Z.add_0_r.
  - destruct f as [|f]; [lia|].
    assert (Hcond : (u32 (millis st - u32 c0) <? 5000) = true).
    { unfold millis. rewrite Hc, u32_elapsed by (unfold wait_passes in Hk; lia).
      apply Z.ltb_lt. unfold wait_passes in Hk. lia. }
    rewrite while_S. cbv beta. rewrite Hcond. clear Hcond.
    destruct_state st. cbn [board clock] in Hc.
    rewrite (IH f (S k)).
    + rewrite Nat.iter_succ_r. unfold wait_pass at 2. exec.
      repeat (f_equal; try lia).
    + lia.
    + lia.
    + exec. lia.
Qed.

(** X20: the wait loop of [onSolve()] ends by its own test.  Started at
    any clock value (also just before the 32-bit counter wraps), the loop
    [while (millis() - startTime < 5000)] makes the passes of 5000 ms and
    stops: given fuel for more passes it makes no more, so cutting it after
    [wait_passes] passes loses nothing. *)
Theorem onSolve_wait_terminates (extra : nat) (st : State) :
  while_ (wait_passes + extra)
         (fun s => u32 (millis s - millis st) <? 5000)
         (on_LS2 Update ;; on_LS3 Update ;; on_LS4 Update ;; elapse 1) st
  = set_lights (Nat.iter wait_passes wait_pass (lights st)) (elapse 5000 st)
  /\ (u32 (millis (elapse 5000 st) - millis st) <? 5000) = false.
Proof.
  split.
  - apply (wait_loop_fuel (clock (board st)) wait_passes (wait_passes + extra) 0);
      [reflexivity | lia | cbn; lia].
  - unfold millis. cbn [board clock elapse set_board].
    rewrite u32_elapsed by lia. reflexivity.
Qed.

(** * The remote reset *)

Lemma reset_is_not_solve (m : list byte) :
  is_command "reset" m = true -> is_command "solve" m = false.
Proof.
  unfold is_command, bytes_eqb.
  destruct (list_eq_dec _ _ (list_byte_of_string "reset")) as [E|]; [|discriminate].
  intros _. rewrite E. reflexivity.
Qed.

(** X17: a remote "reset" always recovers the machine.  Whatever the state
    and whatever else happens in the tick (sensors, tags, earlier messages),
    if the last message that [client.loop()] delivers is "reset" (in any
    letter case), the tick ends in [Unpowered] with the beaker lock released
    and the crystal lock output low. *)
Theorem remote_reset_always_recovers (inp : Inputs) (st : State)
    (ms : list (list byte)) (m : list byte) :
  mqtt inp = ms ++ [m] -> is_command "reset" m = true ->
  puzzleState (loop inp st) = Unpowered
  /\ out_beakerDoor (board (loop inp st)) = LOW
  /\ out_crystalDoor (board (loop inp st)) = LOW.
Proof.
  intros Hm Hr. rewrite loop_unfold.
  rewrite (core_puzzleState _ _ (loop_tail_commands _ _)).
  rewrite (core_board _ _ (loop_tail_commands _ _)).
  unfold client_loop. rewrite Hm, fold_left_app. cbn [fold_left].
  rewrite callback_eq, (reset_is_not_solve m Hr), Hr, onReset_eq.
  repeat split.
Qed.

(** * Progress to [Solved] *)

Lemma loop_state_idle (inp : Inputs) (st : State) :
  no_command inp = true -> puzzleState (loop inp st) = next_state inp st.
Proof.
  intros Hc. rewrite loop_unfold, loop_tail_state. unfold no_command in Hc.
  destruct (mqtt inp); [|discriminate]. cbn [after_commands fold_left].
  exact (handler_state inp (sample inp st)).
Qed.

(** X19: the puzzle is solved within three ticks.  While the laser is
    seen, the door is closed and both readers return their correct tags (no
    remote command), the sketch reaches [Solved] from [Initializing] in
    exactly three ticks, from [Unpowered] in two and from [Powered] in one,
    and is in none of the earlier ticks in [Solved]: the beaker lock need
    not have been engaged on the way. *)
Theorem solved_within_three_ticks (inp : Inputs) (st : State) :
  alchemyPower_of inp = true -> doorClosed_of inp = true ->
  both_correct inp = true -> no_command inp = true ->
  puzzleState st <> Solved -> puzzleState st <> GameOver ->
  puzzleState (run (repeat inp (ticks_to_solve (puzzleState st))) st) = Solved
  /\ forall k, (k < ticks_to_solve (puzzleState st))%nat ->
                puzzleState (run (repeat inp k) st) <> Solved.
Proof.
  intros Hp Hd Hb Hc HS HG.
  pose proof (both_correct_no_reset inp Hb) as Hr.
  assert (N : forall x, puzzleState (loop inp x)
                        = decide_state inp (puzzleState x) true true
                                       (u32 (millis x - solvedMillis x))).
  { intros x. rewrite loop_state_idle by exact Hc. unfold next_state.
    now rewrite Hp, Hd. }
  assert (P : forall x, puzzleState x = Powered -> puzzleState (loop inp x) = Solved).
  { intros x Hx. rewrite N, Hx. cbn [decide_state]. now rewrite Hr, Hb. }
  assert (U : forall x, puzzleState x = Unpowered -> puzzleState (loop inp x) = Powered).
  { intros x Hx. now rewrite N, Hx. }
  assert (I : forall x, puzzleState x = Initializing ->
                        puzzleState (loop inp x) = Unpowered).
  { intros x Hx. now rewrite N, Hx. }
  unfold run.
  destruct (puzzleState st) eqn:E; try congruence; cbn [ticks_to_solve].
  - split; [cbn [repeat fold_left]; now apply P, U, I|].
    intros [|[|[|k]]] Hk; cbn [repeat fold_left]; try lia.
    + congruence.
    + rewrite (I st E). discriminate.
    + rewrite (U _ (I st E)). discriminate.
  - split; [cbn [repeat fold_left]; now apply P, U|].
    intros [|[|k]] Hk; cbn [repeat fold_left]; try lia.
    + congruence.
    + rewrite (U st E). discriminate.
  - split; [cbn [repeat fold_left]; now apply P|].
    intros [|k] Hk; cbn [repeat fold_left]; try lia. congruence.
Qed.

(** * [setup()] *)

(** X18: what [setup()] does to the board.  From any state, [setup()]
    (once its network calls have returned) blocks for 10,050 ms and writes
    two pins and no more: the beaker lock [LOW] after 500 ms, the crystal
    lock [LOW] after 1000 ms; the crystal latch is not pulsed at boot, and
    the globals of the sketch are left as their initialisers set them. *)
Theorem setup_releases_locks (st : State) :
  board (setup st)
  = mkBoard (clock (board st) + 10050) LOW LOW
            (mkEv (clock (board st) + 1000) crystalDoor LOW
             :: mkEv (clock (board st) + 500) beakerDoor LOW
             :: pinlog (board st))
  /\ core (setup st)
     = (puzzleState st, solvedMillis st, currentMillis st, lastUid st,
        beakersCorrect st, alchemyPower st, doorClosed st, board (setup st)).
Proof.
  destruct_state st. unfold setup, core, show. exec.
  split; repeat (f_equal; try lia).
Qed.

(** * [showCurrentStatus()]: the report can be read back *)

Lemma read_print_byte (b : byte) (rest : string) :
  read_byte ((if (byte_val b <? 16)%Z then "0" else EmptyString)
             ++ (print_HEX b ++ rest))
  = Some (b, rest).
Proof. destruct b; reflexivity. Qed.

Lemma string_app_assoc (a b c : string) : ((a ++ b) ++ c = a ++ (b ++ c))%string.
Proof. induction a as [|x a IH]; cbn; [reflexivity | now rewrite IH]. Qed.

Lemma read_print_uid (u : Uid) (rest : string) :
  read_bytes 8 (print_uid u ++ rest) = Some (bytes u).
Proof.
  destruct u as [b0 b1 b2 b3 b4 b5 b6 b7]. unfold print_uid, bytes.
  cbn [map fold_right u0 u1 u2 u3 u4 u5 u6 u7].
  rewrite !string_app_assoc.
  do 8 (cbn [read_bytes]; rewrite read_print_byte). reflexivity.
Qed.

Lemma string_app_cancel (p a b : string) : (p ++ a = p ++ b)%string -> a = b.
Proof. induction p as [|x p IH]; cbn; intros H; [exact H | apply IH; congruence]. Qed.

Lemma print_byte_length (b : byte) :
  String.length ((if (byte_val b <? 16)%Z then "0" else EmptyString) ++ print_HEX b) = 2%nat.
Proof. destruct b; reflexivity. Qed.

Lemma string_app_length (a b : string) :
  String.length (a ++ b) = (String.length a + String.length b)%nat.
Proof. induction a as [|c a IH]; cbn; [reflexivity | now rewrite IH]. Qed.

Lemma print_bytes_length (l : list byte) :
  String.length
    (fold_right append EmptyString
       (map (fun b => ((if (byte_val b <? 16)%Z then "0" else EmptyString)
                        ++ print_HEX b)%string) l))
  = (2 * List.length l)%nat.
Proof.
  induction l as [|b l IH]; [reflexivity|].
  cbn [map fold_right List.length].
  rewrite (string_app_length ((if (byte_val b <? 16)%Z then "0" else EmptyString)
                          ++ print_HEX b)), print_byte_length, IH.
  lia.
Qed.

Lemma bytes_inj (u v : Uid) : bytes u = bytes v -> u = v.
Proof. destruct u, v. unfold bytes. cbn. congruence. Qed.


Lemma print_uid_head (u : Uid) (rest r' : string) :
  (print_uid u ++ rest)%string <> String "-" r'.
Proof.
  destruct u as [b0 b1 b2 b3 b4 b5 b6 b7]. unfold print_uid, bytes.
  cbn [map fold_right u0 u1 u2 u3 u4 u5 u6 u7].
  rewrite !string_app_assoc. destruct b0; cbn; discriminate.
Qed.

Lemma status_line_split (l l' : list Uid) (i : nat) (r r' : string) :
  (status_line l i ++ r)%string = (status_line l' i ++ r')%string ->
  nth i l noUid = nth i l' noUid /\ r = r'.
Proof.
  unfold status_line. cbv zeta.
  generalize (nth i l noUid), (nth i l' noUid). intros u v H.
  rewrite !string_app_assoc in H.
  apply string_app_cancel, string_app_cancel, string_app_cancel in H.
  destruct (same_uid u noUid) eqn:Zu, (same_uid v noUid) eqn:Zv.
  - apply same_uid_iff in Zu, Zv. subst.
    split; [reflexivity|]. now apply string_app_cancel, string_app_cancel in H.
  - symmetry in H. rewrite !string_app_assoc in H. cbn in H.
    now apply print_uid_head in H.
  - rewrite !string_app_assoc in H. cbn in H. now apply print_uid_head in H.
  - assert (E : u = v).
    { apply bytes_inj. apply (f_equal (read_bytes 8)) in H.
      rewrite !string_app_assoc, !read_print_uid in H. congruence. }
    subst v. split; [reflexivity|].
    rewrite !string_app_assoc in H.
    now apply string_app_cancel, string_app_cancel, string_app_cancel in H.
Qed.

(** X11: the status report is unambiguous.  [showCurrentStatus()] prints
    every identifier that is not all zeros as exactly 16 hexadecimal digits
    (the "0" printed before a byte below 0x10 makes each byte two digits), so
    two identifiers that print alike are equal; and the whole report, one
    line per reader, determines both cells of [lastUid] (a cell of zeros is
    the line with "---"). *)
Theorem status_report_unambiguous :
  (forall u : Uid, String.length (print_uid u) = 16%nat)
  /\ (forall u v : Uid, print_uid u = print_uid v -> u = v)
  /\ (forall a b a' b' : Uid,
        showCurrentStatus_text [a; b] = showCurrentStatus_text [a'; b'] ->
        a = a' /\ b = b').
Proof.
  split; [|split].
  - intros u. unfold print_uid. now rewrite print_bytes_length.
  - intros u v H. apply bytes_inj.
    assert (E : Some (bytes u) = Some (bytes v)); [|congruence].
    rewrite <- (read_print_uid u EmptyString), <- (read_print_uid v EmptyString).
    now rewrite H.
  - intros a b a' b' H. unfold showCurrentStatus_text in H.
    cbn [List.seq numReaders map fold_right] in H.
    rewrite !string_app_assoc in H.
    apply status_line_split in H as [Ha H].
    apply status_line_split in H as [Hb _].
    split; [exact Ha | exact Hb].
Qed.

(** * The network functions of [WifiFunctions.h] *)

Lemma wait_wifi_eq (polls : list bool) : forall n,
  wait_wifi polls n
  = if existsb id polls
    then Some (net_delay (500 * Z.of_nat (failures polls)) n, after_success polls)
    else None.
Proof.
  induction polls as [|[] polls IH]; intros n.
  - reflexivity.
  - cbn [wait_wifi existsb id orb failures after_success].
    destruct n. unfold net_delay. cbn. now rewrite Z.add_0_r.
  - cbn [wait_wifi existsb id orb failures after_success]. rewrite IH.
    destruct (existsb id polls); [|reflexivity].
    destruct n. unfold net_delay. cbn [wifi_begun connected sent waited].
    replace (500 * Z.of_nat (S (failures polls)))
      with (500 + 500 * Z.of_nat (failures polls)) by lia.
    now rewrite Z.add_assoc.
Qed.

Lemma reconnectMQTT_eq (attempts : list bool) : forall n,
  connected n = false ->
  reconnectMQTT attempts n
  = if existsb id attempts
    then Some (mkNet (wifi_begun n) true
                     (Subscribe topic
                      :: Publish hostTopic "Alchemy Machine Connected!" :: sent n)
                     (waited n + 5000 * Z.of_nat (failures attempts)),
               after_success attempts)
    else None.
Proof.
  induction attempts as [|[] attempts IH]; intros n Hn.
  - cbn. now rewrite Hn.
  - cbn [reconnectMQTT existsb id orb failures after_success]. rewrite Hn.
    destruct attempts; cbn; now rewrite Z.add_0_r.
  - cbn [reconnectMQTT existsb id orb failures after_success]. rewrite Hn.
    rewrite IH by reflexivity.
    destruct (existsb id attempts); [|reflexivity].
    cbn [wifi_begun connected sent waited net_delay connect].
    replace (5000 * Z.of_nat (S (failures attempts)))
      with (5000 + 5000 * Z.of_nat (failures attempts)) by lia.
    now rewrite Z.add_assoc.
Qed.

(** X12: [reconnectMQTT()] returns connected, or not at all.  Called on a
    connected client it returns at once, having tried nothing and sent
    nothing.  Otherwise it returns exactly when an attempt succeeds: it has
    then waited 5000 ms for each failed attempt, and has sent one status
    publish to the host topic followed by one subscription; as long as every
    attempt fails it does not return.  Whenever it returns, the client is
    connected. *)
Theorem reconnectMQTT_returns_connected :
  (forall attempts n, connected n = true -> reconnectMQTT attempts n = Some (n, attempts))
  /\ (forall attempts n,
        connected n = false ->
        reconnectMQTT attempts n
        = if existsb id attempts
          then Some (mkNet (wifi_begun n) true
                           (Subscribe topic
                            :: Publish hostTopic "Alchemy Machine Connected!" :: sent n)
                           (waited n + 5000 * Z.of_nat (failures attempts)),
                     after_success attempts)
          else None)
  /\ (forall attempts n n' rest,
        reconnectMQTT attempts n = Some (n', rest) -> connected n' = true).
Proof.
  assert (A : forall attempts n,
             connected n = true -> reconnectMQTT attempts n = Some (n, attempts)).
  { intros attempts n H. destruct attempts; cbn; now rewrite H. }
  split; [exact A | split; [exact reconnectMQTT_eq|]].
  intros attempts n n' rest H. destruct (connected n) eqn:Hn.
  - rewrite A in H by exact Hn. congruence.
  - rewrite reconnectMQTT_eq in H by exact Hn.
    destruct (existsb id attempts); [|discriminate].
    injection H as <- _. reflexivity.
Qed.

(** X13: the guard of [handleMQTTReconnect()] repeats the loop condition
    of [reconnectMQTT()]: the two functions behave alike on every client and
    every environment. *)
Theorem handleMQTTReconnect_guard_redundant (attempts : list bool) (n : Net) :
  handleMQTTReconnect attempts n = reconnectMQTT attempts n.
Proof.
  unfold handleMQTTReconnect. destruct (connected n) eqn:Hn; cbn [negb]; [|reflexivity].
  destruct attempts; cbn; now rewrite Hn.
Qed.

(** X14: [handleWifiReconnect()] returns exactly when a poll of the radio
    succeeds.  When the first poll succeeds nothing is done; otherwise
    [WiFi.begin] is called again and the function waits 500 ms before each
    further poll. *)
Theorem handleWifiReconnect_returns_connected (polls : list bool) (n : Net) :
  handleWifiReconnect polls n
  = if existsb id polls
    then Some (if hd true polls then n
               else mkNet true (connected n) (sent n)
                          (waited n + 500 * Z.of_nat (failures polls - 1)),
               after_success polls)
    else None.
Proof.
  destruct polls as [|[] polls]; [reflexivity | reflexivity |].
  cbn [handleWifiReconnect existsb id orb hd failures after_success].
  unfold wifiSetup. rewrite wait_wifi_eq.
  destruct (existsb id polls); [|reflexivity].
  rewrite Nat.sub_succ, Nat.sub_0_r. reflexivity.
Qed.

(** X15: [setup()] does not get past its network calls without a
    network.  From power-on, [wifiSetup(); MQTTsetup();] returns exactly when
    some poll of the radio and then some attempt on the broker succeed; by
    then the sketch has waited 500 ms per failed poll and 5000 ms per failed
    attempt and has sent exactly two packets: the status publish, then the
    subscription ([MQTTsetup]'s own [subscribe], made before the connection,
    sends nothing). *)
Theorem setup_network_blocks (polls attempts : list bool) :
  setup_network polls attempts net_off
  = if existsb id polls && existsb id attempts
    then Some (mkNet true true
                     [Subscribe topic; Publish hostTopic "Alchemy Machine Connected!"]
                     (500 * Z.of_nat (failures polls)
                      + 5000 * Z.of_nat (failures attempts)),
               (after_success polls, after_success attempts))
    else None.
Proof.
  unfold setup_network, wifiSetup, MQTTsetup. rewrite wait_wifi_eq.
  destruct (existsb id polls); [|reflexivity].
  cbn [andb net_off connected sent waited wifi_begun net_delay subscribe].
  rewrite reconnectMQTT_eq by reflexivity.
  destruct (existsb id attempts); reflexivity.
Qed.

(** * The theorems on the remote reset and on the progress to [Solved] at
    concrete inputs *)

Lemma remote_reset_always_recovers_witness :
  out_beakerDoor (board st_locked) = HIGH
  /\ puzzleState (loop tick_remote_reset st_locked) = Unpowered
  /\ out_beakerDoor (board (loop tick_remote_reset st_locked)) = LOW
  /\ out_crystalDoor (board (loop tick_remote_reset st_locked)) = LOW.
Proof.
  split; [reflexivity|].
  apply (remote_reset_always_recovers tick_remote_reset st_locked []
           (list_byte_of_string "Reset")); reflexivity.
Defined.

Lemma solved_within_three_ticks_witness :
  puzzleState booted = Initializing
  /\ puzzleState (run [tick_correct_closed; tick_correct_closed; tick_correct_closed]
                      booted) = Solved.
Proof.
  split; [reflexivity|].
  apply (solved_within_three_ticks tick_correct_closed booted);
    (reflexivity || discriminate).
Defined.

(** * Failed reads *)






